(** * Token off-chain metadata: chain-address keys, Web3 URLs and the
      token metadata store

    A shallow embedding of [chain-address.ts], [url.ts], [defaults.ts] and
    [tokens.ts], and the properties of the key derivation, of the address
    predicate with its memoization cache, of the URL resolver and of the
    store's ingestion of token lists.

    JavaScript strings are modelled as [string] (sequences of 8-bit code
    units); chain identifiers, which the schema restricts to positive safe
    integers, as [N]. *)

From Stdlib Require Import Ascii NArith DecimalString DecimalN.
From stdpp Require Import base option list gmap strings.

Local Open Scope string_scope.
Local Open Scope list_scope.

(** ** JavaScript primitives used by the sources *)

Module JS.

(** [String.prototype.slice(start)] for a non-negative [start]: the
    suffix from index [start], empty when [start] is past the end. *)
Fixpoint slice (start : nat) (s : string) : string :=
  match start, s with
  | O, _ => s
  | S n, String _ s' => slice n s'
  | S _, EmptyString => EmptyString
  end.

Definition isUpperAlpha (c : ascii) : bool :=
  (("A" <=? c) && (c <=? "Z"))%char.

(** Lowercase mapping of one code unit: only [A-Z] change. *)
Definition toLowerChar (c : ascii) : ascii :=
  if isUpperAlpha c then ascii_of_N (N_of_ascii c + 32) else c.

Definition isLowerAlpha (c : ascii) : bool :=
  (("a" <=? c) && (c <=? "z"))%char.

Definition toUpperChar (c : ascii) : ascii :=
  if isLowerAlpha c then ascii_of_N (N_of_ascii c - 32) else c.

Fixpoint mapChars (f : ascii → ascii) (s : string) : string :=
  match s with
  | EmptyString => EmptyString
  | String c s' => String (f c) (mapChars f s')
  end.

(** [String.prototype.toLocaleLowerCase()] / [toLowerCase()]. *)
Definition toLocaleLowerCase (s : string) : string := mapChars toLowerChar s.

(** [String.prototype.toUpperCase()]. *)
Definition toUpperCase (s : string) : string := mapChars toUpperChar s.

(** [String.prototype.startsWith(p)]. *)
Definition startsWith (s p : string) : bool := String.prefix p s.

(** The string a template literal or [String(n)] gives for a
    non-negative safe integer: its decimal digits. *)
Definition numberToString (n : N) : string :=
  NilEmpty.string_of_uint (N.to_uint n).

(** [Number(s)] on a string of decimal digits.  Strings of another shape
    are never passed: the only caller applies it to the keys of a
    validated record, which are [numberToString] of a number. *)
Definition Number (s : string) : N :=
  match NilEmpty.uint_of_string s with
  | Some d => N.of_uint d
  | None => 0%N
  end.

(** Thrown values, by constructor and message. *)
Inductive Exception : Type :=
| Error (message : string)
| TypeError (message : string)
| SyntaxError (message : string).

End JS.

(** ** chain-address.ts *)

Module ChainAddress.

(** [type Address = `0x${string}`]. *)
Definition Address : Type := string.

Record ChainAddress : Type := mkChainAddress {
  chainId : N;
  address : Address
}.

Definition ChainAddressKey : Type := string.

Definition getChainAddressKey (chainAddress : ChainAddress) : ChainAddressKey :=
  JS.numberToString (chainId chainAddress) +:+ "_" +:+ JS.slice 2 (address chainAddress).

(** *** The address regular expression [/^0x[a-f0-9]{40}$/] *)

Definition isLowerHexDigit (c : ascii) : bool :=
  ((("a" <=? c) && (c <=? "f")) || (("0" <=? c) && (c <=? "9")))%char.

(** [cls{n}$]: exactly [n] characters of the class, then the end. *)
Fixpoint matchClassTimes (cls : ascii → bool) (n : nat) (s : string) : bool :=
  match n, s with
  | O, EmptyString => true
  | S n', String c s' => cls c && matchClassTimes cls n' s'
  | _, _ => false
  end.

Definition addressRegex_test (s : string) : bool :=
  match s with
  | String c0 (String c1 rest) =>
      Ascii.eqb c0 "0" && Ascii.eqb c1 "x" && matchClassTimes isLowerHexDigit 40 rest
  | _ => false
  end.

(** *** The memoization cache

    [LruCache] of [@std/cache]: a [Map] whose iteration order is the order
    of last use, the least recently used entry first.  [get] on a present
    key moves it to the end; [set] moves or appends the key and then
    drops the first entry when the size exceeds [maxSize]. *)

Record LruCache (V : Type) : Type := mkLruCache {
  maxSize : N;
  entries : list (string * V)
}.
Arguments mkLruCache {V} _ _.
Arguments maxSize {V} _.
Arguments entries {V} _.

Section LruCacheOps.
Context {V : Type}.

Fixpoint assoc (k : string) (l : list (string * V)) : option V :=
  match l with
  | [] => None
  | (k', v) :: l' => if String.eqb k k' then Some v else assoc k l'
  end.

Definition without (k : string) (l : list (string * V)) : list (string * V) :=
  filter (λ e, negb (String.eqb k e.1) = true) l.

Definition setMostRecentlyUsed (k : string) (v : V) (c : LruCache V) : LruCache V :=
  mkLruCache (maxSize c) (without k (entries c) ++ [(k, v)]).

Definition pruneToMaxSize (c : LruCache V) : LruCache V :=
  if (maxSize c <? N.of_nat (length (entries c)))%N
  then mkLruCache (maxSize c) (tail (entries c))
  else c.

Definition LruCache_get (k : string) (c : LruCache V) : option V * LruCache V :=
  match assoc k (entries c) with
  | Some v => (Some v, setMostRecentlyUsed k v c)
  | None => (None, c)
  end.

Definition LruCache_set (k : string) (v : V) (c : LruCache V) : LruCache V :=
  pruneToMaxSize (setMostRecentlyUsed k v c).
End LruCacheOps.

(** [new LruCache<string, boolean>(8192)]. *)
Definition isAddressCache : LruCache bool := mkLruCache 8192%N [].

(** [isAddress], with the module-level cache threaded through. *)
Definition isAddress (address : string) (cache : LruCache bool) : bool * LruCache bool :=
  let address := JS.toLocaleLowerCase address in
  let '(result, cache) := LruCache_get address cache in
  match result with
  | Some result => (result, cache)
  | None =>
      let result := addressRegex_test address in
      (result, LruCache_set address result cache)
  end.

(** The cache after a sequence of calls of [isAddress], oldest first. *)
Definition cacheAfter (calls : list string) : LruCache bool :=
  fold_left (λ cache s, (isAddress s cache).2) calls isAddressCache.

(** The syntactic rule in the specification's words: the prefix [0x], in
    either case, followed by exactly 40 hexadecimal digits. *)
Definition isHexDigit (c : ascii) : bool :=
  ((("0" <=? c) && (c <=? "9")) || (("a" <=? c) && (c <=? "f"))
   || (("A" <=? c) && (c <=? "F")))%char.

Definition WellFormedAddress (s : string) : Prop :=
  ∃ x digits,
    s = String "0" (String x digits) ∧ (x = "x"%char ∨ x = "X"%char) ∧
    String.length digits = 40 ∧
    Forall (λ c, isHexDigit c = true) (String.list_ascii_of_string digits).

(** The address with the letters of its hexadecimal digits uppercased, the
    two characters of the prefix left as they are. *)
Definition withUppercaseDigits (a : Address) : Address :=
  match a with
  | String c0 (String c1 digits) => String c0 (String c1 (JS.toUpperCase digits))
  | _ => a
  end.

(** Every cached answer is the answer of the regular expression. *)
Definition cacheSound (c : LruCache bool) : Prop :=
  ∀ k v, (k, v) ∈ entries c → v = addressRegex_test k.

End ChainAddress.

(** ** defaults.ts *)

Module Defaults.

Definition defaultTokenLists : list string :=
  ["ipns://tokens.uniswap.org"; "https://tokens.coingecko.com/uniswap/all.json"].

Definition defaultIpfsProvider : string := "https://ipfs.io/".

End Defaults.

(** ** url.ts *)

Module Url.

(** The platform's [URL] object, by the getters the sources read. *)
Record URL : Type := mkURL {
  href : string;
  protocol : string;
  hostname : string;
  pathname : string;
  search : string;
  hash : string
}.

Definition isHttpsUrl (href : string) : bool := JS.startsWith href "https://".


Definition buildIpfsHttpsUrl (cid : string) (ipfsProvider : option string) : string :=
  default Defaults.defaultIpfsProvider ipfsProvider +:+ "/ipfs/" +:+ cid.

Definition buildIpnsHttpUrl (cid : string) (ipfsProvider : option string) : string :=
  default Defaults.defaultIpfsProvider ipfsProvider +:+ "/ipns/" +:+ cid.

Section Resolver.

(** [new URL(input, base)]: the parsed URL, or [None] when the constructor
    throws its [TypeError]. *)
Variable URL_new : string → option string → option URL.

(** The message of that [TypeError] is the runtime's: it quotes the input,
    and the base when one is given and is not the empty string. *)
Definition invalidUrlMessage (input : string) (base : option string) : string :=
  "Invalid URL: '" +:+ input +:+ "'"
  +:+ match base with
      | Some (String c b) => " with base '" +:+ String c b +:+ "'"
      | _ => EmptyString
      end.

Definition construct (input : string) (base : option string) : JS.Exception + URL :=
  match URL_new input base with
  | Some url => inr url
  | None => inl (JS.TypeError (invalidUrlMessage input base))
  end.

(** [toHttpsUrl(href, ipfsProvider = defaultIpfsProvider)]; the optional
    argument is [None] when the caller leaves it out. *)
Definition toHttpsUrl (href : string) (ipfsProvider : option string)
  : JS.Exception + URL :=
  let ipfsProvider := default Defaults.defaultIpfsProvider ipfsProvider in
  match construct href None with
  | inl e => inl e
  | inr url =>
      if String.eqb (protocol url) "https:" then inr url
      else if String.eqb (protocol url) "ipfs:" then
        construct (pathname url +:+ search url +:+ hash url)
                  (Some (buildIpfsHttpsUrl (hostname url) (Some ipfsProvider)))
      else if String.eqb (protocol url) "ipns:" then
        construct (pathname url +:+ search url +:+ hash url)
                  (Some (buildIpnsHttpUrl (hostname url) (Some ipfsProvider)))
      else inl (JS.Error ("Unsupported URL protocol: " +:+ protocol url))
  end.

End Resolver.

End Url.

(** ** The URL parser of the platform

    Modelled from the WHATWG URL Standard (basic URL parser, URL serializer
    and the getters of the [URL] class), for hierarchical inputs
    [scheme://host/path?query#fragment] and for relative references
    resolved against such a base.  The rest of the standard is outside the
    model, and the parser below is not the platform's there:
    - it answers [None] on a scheme that is not followed by two slashes
      (where the platform reads an opaque path, a path without a host or,
      for a special scheme, skips the slashes that are there), on
      credentials, ports, IP literals in brackets, the [file] scheme and
      the empty authority of a special scheme (where the platform skips
      further slashes);
    - it copies unchanged the characters that the platform
      percent-encodes, decodes, strips (surrounding white space, tabs and
      line breaks) or refuses in a host, a backslash, and a host that the
      platform reads as a number.
    The properties below that are stated on this parser say on which
    strings they hold. *)

Module Whatwg.

Record Components : Type := mkComponents {
  scheme : string;
  host : string;
  path : list string;
  query : option string;
  fragment : option string
}.

Definition isAlpha (c : ascii) : bool := JS.isUpperAlpha c || JS.isLowerAlpha c.

Definition isDigit (c : ascii) : bool := (("0" <=? c) && (c <=? "9"))%char.

Definition isSchemeChar (c : ascii) : bool :=
  isAlpha c || isDigit c || Ascii.eqb c "+" || Ascii.eqb c "-" || Ascii.eqb c ".".

Definition isSpecial (scheme : string) : bool :=
  bool_decide (scheme ∈ ["ftp"; "http"; "https"; "ws"; "wss"]).

(** Scheme state: scheme characters, lowercased into [buffer], up to the
    colon; the result is the scheme and what follows the colon. *)
Fixpoint schemeState (s buffer : string) : option (string * string) :=
  match s with
  | EmptyString => None
  | String c s' =>
      if Ascii.eqb c ":" then Some (buffer, s')
      else if isSchemeChar c
           then schemeState s' (buffer +:+ String (JS.toLowerChar c) EmptyString)
           else None
  end.

(** Scheme start state. *)
Definition schemeStartState (s : string) : option (string * string) :=
  match s with
  | String c _ => if isAlpha c then schemeState s EmptyString else None
  | EmptyString => None
  end.

(** The part of [s] before the first character satisfying [stop], and the
    rest from that character on. *)
Fixpoint cut (stop : ascii → bool) (s : string) : string * string :=
  match s with
  | EmptyString => (EmptyString, EmptyString)
  | String c s' =>
      if stop c then (EmptyString, s)
      else let '(a, b) := cut stop s' in (String c a, b)
  end.

(** The pieces of [s] between the occurrences of [sep]. *)
Fixpoint splitOn (sep : ascii) (s : string) : list string :=
  match s with
  | EmptyString => [EmptyString]
  | String c s' =>
      if Ascii.eqb c sep then EmptyString :: splitOn sep s'
      else match splitOn sep s' with
           | h :: t => String c h :: t
           | [] => [String c EmptyString]
           end
  end.

(** Path state over the segments that remain, [acc] being the path so
    far: a double-dot segment shortens the path, a single-dot segment is
    dropped, and either one leaves an empty segment when it comes last. *)
Fixpoint pathState (segments : list string) (acc : list string) : list string :=
  match segments with
  | [] => acc
  | buffer :: rest =>
      let last := match rest with [] => true | _ => false end in
      if String.eqb buffer ".." then
        pathState rest (if last then removelast acc ++ [EmptyString] else removelast acc)
      else if String.eqb buffer "." then
        pathState rest (if last then acc ++ [EmptyString] else acc)
      else pathState rest (acc ++ [buffer])
  end.

(** Query state and fragment state on the text after the path: the query
    is what follows the first [?] up to the first [#], the fragment what
    follows the first [#]. *)
Definition queryAndFragment (s : string) : option string * option string :=
  let '(q, f) := cut (Ascii.eqb "#") s in
  (match q with String "?" q' => Some q' | _ => None end,
   match f with String "#" f' => Some f' | _ => None end).

Definition isPathEnd (c : ascii) : bool := Ascii.eqb c "?" || Ascii.eqb c "#".

Definition isAuthorityEnd (c : ascii) : bool :=
  Ascii.eqb c "/" || Ascii.eqb c "?" || Ascii.eqb c "#".

Definition hasUnmodelled (authority : string) : bool :=
  existsb (λ c, Ascii.eqb c "@" || Ascii.eqb c ":" || Ascii.eqb c "["
                || Ascii.eqb c "\")
          (String.list_ascii_of_string authority).

(** Path start state and path state on the text between the authority and
    the query: a special URL always has a path. *)
Definition parsePath (special : bool) (p : string) : list string :=
  match p with
  | String "/" p' => pathState (splitOn "/" p') []
  | _ => if special then [EmptyString] else []
  end.

(** Authority state, host state and what follows, on the text after
    [scheme://], for an authority that is a host and nothing else. *)
Definition parseAfterSlashes (scheme rest : string) : option Components :=
  let '(authority, rest) := cut isAuthorityEnd rest in
  let '(p, rest) := cut isPathEnd rest in
  let '(q, f) := queryAndFragment rest in
  let special := isSpecial scheme in
  if hasUnmodelled authority || String.eqb scheme "file" then None
  else if special && String.eqb authority EmptyString then None
  else Some (mkComponents scheme
               (if special then JS.toLocaleLowerCase authority else authority)
               (parsePath special p) q f).

(** Relative state and relative slash state: [input] carries no scheme and
    is resolved against [base]. *)
Definition relativeState (input : string) (base : Components) : option Components :=
  match input with
  | EmptyString =>
      Some (mkComponents (scheme base) (host base) (path base) (query base) None)
  | String "/" (String "/" rest) => parseAfterSlashes (scheme base) rest
  | String "/" _ =>
      let '(p, rest) := cut isPathEnd input in
      let '(q, f) := queryAndFragment rest in
      Some (mkComponents (scheme base) (host base)
              (parsePath (isSpecial (scheme base)) p) q f)
  | String "?" _ =>
      let '(q, f) := queryAndFragment input in
      Some (mkComponents (scheme base) (host base) (path base) q f)
  | String "#" f =>
      Some (mkComponents (scheme base) (host base) (path base) (query base) (Some f))
  | _ =>
      let '(p, rest) := cut isPathEnd input in
      let '(q, f) := queryAndFragment rest in
      Some (mkComponents (scheme base) (host base)
              (pathState (splitOn "/" p) (removelast (path base))) q f)
  end.

(** The basic URL parser on [input], with an optional parsed base, for
    an input whose scheme is followed by two slashes or that has no
    scheme. *)
Definition basicParse (input : string) (base : option Components) : option Components :=
  match schemeStartState input with
  | Some (scheme, String "/" (String "/" rest)) => parseAfterSlashes scheme rest
  | Some _ => None
  | None =>
      match base with
      | Some b => relativeState input b
      | None => None
      end
  end.

(** Path serializer: every segment preceded by a slash. *)
Definition serializePath (p : list string) : string :=
  fold_right (λ segment acc, "/" +:+ segment +:+ acc) EmptyString p.

Definition withPrefix (pre : string) (o : option string) : string :=
  match o with Some s => pre +:+ s | None => EmptyString end.

(** URL serializer. *)
Definition serialize (u : Components) : string :=
  scheme u +:+ "://" +:+ host u +:+ serializePath (path u)
  +:+ withPrefix "?" (query u) +:+ withPrefix "#" (fragment u).

(** The [search] and [hash] getters are empty for a null or empty
    component. *)
Definition nonEmptyWithPrefix (pre : string) (o : option string) : string :=
  match o with
  | Some (String c s) => pre +:+ String c s
  | _ => EmptyString
  end.

Definition toURL (u : Components) : Url.URL :=
  Url.mkURL (serialize u) (scheme u +:+ ":") (host u) (serializePath (path u))
            (nonEmptyWithPrefix "?" (query u)) (nonEmptyWithPrefix "#" (fragment u)).

(** [new URL(input, base)]: the base, when given, is parsed first. *)
Definition URL_new (input : string) (base : option string) : option Url.URL :=
  match base with
  | None => toURL <$> basicParse input None
  | Some b =>
      match basicParse b None with
      | Some parsedBase => toURL <$> basicParse input (Some parsedBase)
      | None => None
      end
  end.

(** The unreserved characters: letters, digits, hyphen, period, underscore
    and tilde, which the parser copies unchanged wherever they stand. *)
Definition isUnreserved (c : ascii) : bool :=
  isAlpha c || isDigit c || Ascii.eqb c "-" || Ascii.eqb c "." || Ascii.eqb c "_"
  || Ascii.eqb c "~".

End Whatwg.

(** ** token-list-validation.ts: the output type of [tokenListSchema] *)

Module TokenListSchema.

Record BridgeInfo : Type := mkBridgeInfo {
  tokenAddress : ChainAddress.Address
}.

(** [extensions]: [bridgeInfo] is a record whose keys went through
    [v.transform(Number)]; it is kept as its entries, key and value, in the
    order of enumeration. *)
Record Extensions : Type := mkExtensions {
  bridgeInfo : option (list (N * BridgeInfo))
}.

Record TokenInfo : Type := mkTokenInfo {
  chainId : N;
  address : ChainAddress.Address;
  name : string;
  symbol : string;
  decimals : N;
  logoURI : option string;
  extensions : option Extensions
}.

Record Version : Type := mkVersion {
  major : N;
  minor : N;
  patch : N
}.

Record TokenList : Type := mkTokenList {
  listName : string;
  timestamp : string;
  version : Version;
  tokens : list TokenInfo
}.

(** The result of [safeParse]. *)
Inductive SafeParseResult : Type :=
| Success (output : TokenList)
| Failure (issues : list string).

(** [Object.entries] of a [bridgeInfo] record: the keys come back as
    strings. *)
Definition Object_entries (record : list (N * BridgeInfo)) : list (string * BridgeInfo) :=
  map (λ entry, (JS.numberToString entry.1, entry.2)) record.

End TokenListSchema.

(** ** tokens.ts *)

Module Tokens.

Import TokenListSchema.

Record TokenListMetadata : Type := mkTokenListMetadata {
  name : string;
  timestamp : string;
  href : string;
  version : Version
}.

Record LogoImage : Type := mkLogoImage {
  src : string
}.

#[export] Instance LogoImage_eq_dec : EqDecision LogoImage.
Proof. solve_decision. Defined.

Record TokenMetadata : Type := mkTokenMetadata {
  logoImages : list LogoImage
}.

(** A reference to a [TokenMetadata] object: its index among the objects. *)
Abbreviation ref := nat (only parsing).

(** The private state of a [TokenMetadataStore], together with the
    [TokenMetadata] objects its map refers to: [objects] is indexed by
    reference, and two keys of [tokensByAddress] bound to one reference
    share the object. *)
Record TokenMetadataStore : Type := mkStore {
  tokenLists : list (string * TokenListMetadata);
  tokensByAddress : gmap ChainAddress.ChainAddressKey ref;
  objects : list TokenMetadata
}.

(** [new TokenMetadataStore()]. *)
Definition newStore : TokenMetadataStore := mkStore [] ∅ [].

(** *** Computations on the store: a result or a thrown exception, and the
    store as the computation left it. *)

Inductive Completion (A : Type) : Type :=
| Return (a : A)
| Throw (e : JS.Exception).
Arguments Return {A} _.
Arguments Throw {A} _.

Definition M (A : Type) : Type := TokenMetadataStore → Completion A * TokenMetadataStore.

#[export] Instance M_ret : MRet M := λ A a st, (Return a, st).

#[export] Instance M_bind : MBind M := λ A B f m st,
  match m st with
  | (Return a, st') => f a st'
  | (Throw e, st') => (Throw e, st')
  end.

Definition throw {A : Type} (e : JS.Exception) : M A := λ st, (Throw e, st).

(** A promise or call that settles without touching the store. *)
Definition settle {A : Type} (r : JS.Exception + A) : M A :=
  match r with
  | inl e => throw e
  | inr a => mret a
  end.

Definition gets {A : Type} (f : TokenMetadataStore → A) : M A := λ st, (Return (f st), st).

Definition modify (f : TokenMetadataStore → TokenMetadataStore) : M unit :=
  λ st, (Return tt, f st).

(** [for (const x of xs) body]. *)
Fixpoint forOf {A : Type} (xs : list A) (body : A → M unit) : M unit :=
  match xs with
  | [] => mret tt
  | x :: xs' => body x ≫= λ _, forOf xs' body
  end.

(** *** The two maps and the objects *)

Definition tokensByAddress_get (key : ChainAddress.ChainAddressKey) : M (option ref) :=
  gets (λ st, tokensByAddress st !! key).

Definition tokensByAddress_has (key : ChainAddress.ChainAddressKey) : M bool :=
  gets (λ st, bool_decide (is_Some (tokensByAddress st !! key))).

Definition tokensByAddress_set (key : ChainAddress.ChainAddressKey) (r : ref) : M unit :=
  modify (λ st, mkStore (tokenLists st) (<[key := r]> (tokensByAddress st)) (objects st)).

(** [Map.prototype.set] on a map kept in insertion order: the value of a
    present key is replaced where it stands, a new key goes last. *)
Fixpoint Map_set {V : Type} (k : string) (v : V) (m : list (string * V)) : list (string * V) :=
  match m with
  | [] => [(k, v)]
  | (k', v') :: m' =>
      if String.eqb k k' then (k, v) :: m' else (k', v') :: Map_set k v m'
  end.

Definition Map_get {V : Type} (k : string) (m : list (string * V)) : option V :=
  ChainAddress.assoc k m.

Definition tokenLists_set (key : string) (value : TokenListMetadata) : M unit :=
  modify (λ st, mkStore (Map_set key value (tokenLists st)) (tokensByAddress st) (objects st)).

(** An object literal [{ logoImages: [...] }]: a new object. *)
Definition newObject (o : TokenMetadata) : M ref :=
  λ st, (Return (length (objects st)),
         mkStore (tokenLists st) (tokensByAddress st) (objects st ++ [o])).

(** The [logoImages] of the object at [r]. *)
Definition logoImagesOf (st : TokenMetadataStore) (r : ref) : list LogoImage :=
  match objects st !! r with
  | Some o => logoImages o
  | None => []
  end.

Definition readLogoImages (r : ref) : M (list LogoImage) :=
  gets (λ st, logoImagesOf st r).

(** [tokenMetadata.logoImages = images]. *)
Definition writeLogoImages (r : ref) (images : list LogoImage) : M unit :=
  modify (λ st, mkStore (tokenLists st) (tokensByAddress st)
                        (<[r := mkTokenMetadata images]> (objects st))).

(** *** The methods *)

(** The loop of [addTokenLogoImageSources]: [current] is
    [tokenMetadata.logoImages], which the loop reads and does not write. *)
Definition pushNewSources (current : list LogoImage) (newSources : list string)
  : list LogoImage :=
  fold_left
    (λ newLogoImages s,
       if forallb (λ image, negb (String.eqb (src image) s)) current
       then newLogoImages ++ [mkLogoImage s]
       else newLogoImages)
    newSources current.

Definition addTokenLogoImageSources
    (chainAddress : ChainAddress.ChainAddress) (newSources : list string) : M ref :=
  let key := ChainAddress.getChainAddressKey chainAddress in
  found ← tokensByAddress_get key;
  tokenMetadata ←
    match found with
    | Some tokenMetadata => mret tokenMetadata
    | None =>
        tokenMetadata ← newObject (mkTokenMetadata []);
        tokensByAddress_set key tokenMetadata;;
        mret tokenMetadata
    end;
  current ← readLogoImages tokenMetadata;
  let newLogoImages := pushNewSources current newSources in
  writeLogoImages tokenMetadata newLogoImages;;
  mret tokenMetadata.

Definition getTokenFromAddress (chainAddress : ChainAddress.ChainAddress) : M (option ref) :=
  tokensByAddress_get (ChainAddress.getChainAddressKey chainAddress).

(** The [tokenLists] getter. *)
Definition get_tokenLists : M (list TokenListMetadata) :=
  gets (λ st, map snd (tokenLists st)).

(** [getTokenListMetadata] on a [URL] object. *)
Definition getTokenListMetadata (tokenListUrl : Url.URL) : M (option TokenListMetadata) :=
  gets (λ st, Map_get (Url.href tokenListUrl) (tokenLists st)).

(** The body of the loop over [Object.entries(token.extensions.bridgeInfo)]. *)
Definition linkBridgedToken (tokenMetadata : ref) (logoURI : string)
    (entry : string * BridgeInfo) : M unit :=
  let '(chainIdString, bridgeInfo) := entry in
  let chainId := JS.Number chainIdString in
  let key := ChainAddress.getChainAddressKey
               (ChainAddress.mkChainAddress chainId (tokenAddress bridgeInfo)) in
  present ← tokensByAddress_has key;
  (if negb present then tokensByAddress_set key tokenMetadata else mret tt);;
  addTokenLogoImageSources
    (ChainAddress.mkChainAddress chainId (tokenAddress bridgeInfo)) [logoURI];;
  mret tt.

(** [token.logoURI && isHttpsUrl(token.logoURI)]: the logo that passes, if
    any; an absent or empty string is falsy. *)
Definition acceptedLogo (token : TokenInfo) : option string :=
  match logoURI token with
  | Some uri =>
      if negb (String.eqb uri EmptyString) && Url.isHttpsUrl uri then Some uri else None
  | None => None
  end.

(** [token.extensions?.bridgeInfo]. *)
Definition bridgeInfoOf (token : TokenInfo) : option (list (N * BridgeInfo)) :=
  extensions token ≫= bridgeInfo.

(** The body of the loop over [parseResult.output.tokens]. *)
Definition ingestToken (token : TokenInfo) : M unit :=
  match acceptedLogo token with
  | Some uri =>
      tokenMetadata ← addTokenLogoImageSources
        (ChainAddress.mkChainAddress (chainId token) (address token)) [uri];
      match bridgeInfoOf token with
      | Some record => forOf (Object_entries record) (linkBridgedToken tokenMetadata uri)
      | None => mret tt
      end
  | None => mret tt
  end.

Section Fetch.

(** What [response.json()] resolves to, and the validation of
    [token-list-validation.ts] through [safeParse]. *)
Variable JSON : Type.
Variable safeParse_tokenListSchema : JSON → SafeParseResult.

(** The part of a [Response] that is read. *)
Record Response : Type := mkResponse {
  ok : bool;
  statusText : string;
  json : JS.Exception + JSON
}.

(** [fetchTokensFromList(tokenListUrl, { fetch })]; what is written to the
    console is not modelled. *)
Definition fetchTokensFromList
    (fetch : Url.URL → JS.Exception + Response) (tokenListUrl : Url.URL) : M unit :=
  response ← settle (fetch tokenListUrl);
  (if negb (ok response)
   then throw (JS.Error ("Failed to fetch token list: " +:+ statusText response))
   else mret tt);;
  body ← settle (json response);
  match safeParse_tokenListSchema body with
  | Failure issues => throw (JS.Error "Unable to parse token list.")
  | Success output =>
      forOf (tokens output) ingestToken;;
      tokenLists_set (Url.href tokenListUrl)
        (mkTokenListMetadata (listName output) (TokenListSchema.timestamp output)
           (Url.href tokenListUrl) (TokenListSchema.version output))
  end.

End Fetch.

(** [getTokenListMetadata] as the method is declared, on a [URL] object or
    on a string, which [new URL] parses first. *)
Definition getTokenListMetadataOf
    (URL_new : string → option string → option Url.URL)
    (tokenListUrl : Url.URL + string) : M (option TokenListMetadata) :=
  tokenListUrl ←
    match tokenListUrl with
    | inr s => settle (Url.construct URL_new s None)
    | inl url => mret url
    end;
  gets (λ st, Map_get (Url.href tokenListUrl) (tokenLists st)).

(** *** Invariants of the store *)

(** Every reference bound in [tokensByAddress] denotes an object; the keys
    of [tokenLists] are distinct and each is the [href] of its value. *)
Record storeInv (st : TokenMetadataStore) : Prop := mkStoreInv {
  inv_refs : ∀ k r, tokensByAddress st !! k = Some r → r < length (objects st);
  inv_keys : NoDup (map fst (tokenLists st));
  inv_href : ∀ k m, (k, m) ∈ tokenLists st → href m = k
}.

(** [st'] extends [st]: bindings stay, objects stay and their logo
    sequences only grow at the end, and the token lists are the same. *)
Record extends (st st' : TokenMetadataStore) : Prop := mkExtends {
  ext_bindings : ∀ k r, tokensByAddress st !! k = Some r → tokensByAddress st' !! k = Some r;
  ext_logos : ∀ r, logoImagesOf st r `prefix_of` logoImagesOf st' r;
  ext_objects : (length (objects st) <= length (objects st'))%nat;
  ext_lists : tokenLists st' = tokenLists st
}.

(** From every store that satisfies [I], the computation [m] returns, into
    an extension that satisfies [I], a result satisfying [post]. *)
Definition runs {A : Type} (I : TokenMetadataStore → Prop) (m : M A)
    (post : A → TokenMetadataStore → Prop) : Prop :=
  ∀ st, I st →
    ∃ a st', m st = (Return a, st') ∧ I st' ∧ extends st st' ∧ post a st'.

(** The source [s] is not among [current]: the test of the loop. *)
Definition isNewSource (current : list LogoImage) (s : string) : bool :=
  forallb (λ image, negb (String.eqb (src image) s)) current.

(** The entry at [key] is bound to an object that has [uri] among its
    logo sources. *)
Definition hasLogoAt (key : ChainAddress.ChainAddressKey) (uri : string)
    (st : TokenMetadataStore) : Prop :=
  ∃ r, tokensByAddress st !! key = Some r ∧ mkLogoImage uri ∈ logoImagesOf st r.

(** The guard of the loop over the tokens in the words of the
    specification: the token has a [logoURI], and it starts with
    [https://]. *)
Definition hasHttpsLogo (token : TokenInfo) : bool :=
  match logoURI token with
  | Some uri => Url.isHttpsUrl uri
  | None => false
  end.

(** [key] is the key of the token's own chain address or of one of the
    bridge targets of its [bridgeInfo]. *)
Definition declaresKey (token : TokenInfo) (key : ChainAddress.ChainAddressKey) : Prop :=
  key = ChainAddress.getChainAddressKey
          (ChainAddress.mkChainAddress (chainId token) (address token))
  ∨ ∃ record n b, bridgeInfoOf token = Some record ∧ (n, b) ∈ record
      ∧ key = ChainAddress.getChainAddressKey
                (ChainAddress.mkChainAddress n (tokenAddress b)).

End Tokens.

(** ** Sample data *)

Module Examples.

Import TokenListSchema.

Definition daiAddress : ChainAddress.Address :=
  "0x6B175474E89094C44Da98b954EedeAC495271d0F".

Definition daiOnBase : ChainAddress.Address :=
  "0x50c5725949A6F0c72E6C4a641F24049A917DB0Cb".

Definition dai : ChainAddress.ChainAddress := ChainAddress.mkChainAddress 1 daiAddress.

Definition daiLogo : string := "https://example/dai.png".

Definition daiToken : TokenInfo :=
  mkTokenInfo 1 daiAddress "Dai Stablecoin" "DAI" 18 (Some daiLogo)
    (Some (mkExtensions (Some [(8453%N, mkBridgeInfo daiOnBase)]))).

Definition sampleList : TokenList :=
  mkTokenList "Sample List" "2024-12-12T18:01:30.180Z" (mkVersion 1 2 3) [daiToken].

Definition sampleUrl : Url.URL :=
  Url.mkURL "https://lists.example/tokens.json" "https:" "lists.example"
            "/tokens.json" "" "".

(** A store in which the bridged address of DAI already has an entry of
    its own, with another logo. *)
Definition baseLogo : string := "/static/images/dai-on-base.png".

Definition prepopulated : Tokens.TokenMetadataStore :=
  (Tokens.addTokenLogoImageSources
     (ChainAddress.mkChainAddress 8453 daiOnBase) [baseLogo] Tokens.newStore).2.

(** The new store after the sample token has been processed: the two
    addresses of DAI share one object. *)
Definition bridgedStore : Tokens.TokenMetadataStore :=
  (Tokens.ingestToken daiToken Tokens.newStore).2.

(** A token whose logo is not served over https, with a bridge target of
    its own, and a document that lists it before DAI. *)
Definition usdcAddress : ChainAddress.Address :=
  "0xA0b86991c6218b36c1d19D4a2e9Eb0cE3606eB48".

Definition usdcOnBase : ChainAddress.Address :=
  "0x833589fCD6eDb6E08f4c7C32D4f71b54bdA02913".

Definition usdcToken : TokenInfo :=
  mkTokenInfo 1 usdcAddress "USD Coin" "USDC" 6 (Some "ipfs://cid/usdc.png")
    (Some (mkExtensions (Some [(8453%N, mkBridgeInfo usdcOnBase)]))).

Definition mixedList : TokenList :=
  mkTokenList "Sample List" "2024-12-12T18:01:30.180Z" (mkVersion 1 2 3)
    [usdcToken; daiToken].

(** A string that is not an address. *)
Definition malformed : ChainAddress.Address := "0xnot-an-address".

(** A fetch capability that serves a fixed body, the body being the
    outcome of its own validation. *)
Definition serve (body : SafeParseResult)
  : Url.URL → JS.Exception + Tokens.Response SafeParseResult :=
  λ _, inr (Tokens.mkResponse SafeParseResult true "OK" (inr body)).

End Examples.

(** * Properties *)

(** ** Characters and strings *)

Section StringFacts.

Lemma toLowerChar_zero (c : ascii) :
  JS.toLowerChar c = "0"%char ↔ c = "0"%char.
Proof.
  destruct c as [[] [] [] [] [] [] [] []]; vm_compute; split; congruence.
Qed.

Lemma toLowerChar_x (c : ascii) :
  JS.toLowerChar c = "x"%char ↔ c = "x"%char ∨ c = "X"%char.
Proof.
  destruct c as [[] [] [] [] [] [] [] []]; vm_compute;
    (split; [ first [ discriminate | (intros _; (left; reflexivity) || (right; reflexivity)) ]
            | intros [H | H]; first [ discriminate H | reflexivity ] ]).
Qed.

Lemma isLowerHexDigit_toLowerChar (c : ascii) :
  ChainAddress.isLowerHexDigit (JS.toLowerChar c) = ChainAddress.isHexDigit c.
Proof.
  destruct c as [[] [] [] [] [] [] [] []]; reflexivity.
Qed.

Lemma mapChars_length (f : ascii → ascii) (s : string) :
  String.length (JS.mapChars f s) = String.length s.
Proof.
  induction s as [| c s IH]; simpl; [reflexivity | by rewrite IH].
Qed.

Lemma matchClassTimes_spec (cls : ascii → bool) (n : nat) (s : string) :
  ChainAddress.matchClassTimes cls n s = true ↔
  String.length s = n ∧ Forall (λ c, cls c = true) (String.list_ascii_of_string s).
Proof.
  revert s; induction n as [| n IH]; intros [| c s]; simpl.
  - split; [intros _; split; [reflexivity | constructor] | reflexivity].
  - split; [discriminate | intros [H _]; discriminate H].
  - split; [discriminate | intros [H _]; discriminate H].
  - rewrite andb_true_iff, IH, Forall_cons. split.
    + intros (Hc & Hl & Hf). by rewrite Hl.
    + intros (Hl & Hc & Hf). injection Hl as Hl. done.
Qed.

Lemma Forall_mapChars (f : ascii → ascii) (P : ascii → Prop) (s : string) :
  Forall P (String.list_ascii_of_string (JS.mapChars f s)) ↔
  Forall (λ c, P (f c)) (String.list_ascii_of_string s).
Proof.
  induction s as [| c s IH]; simpl.
  - split; constructor.
  - rewrite !Forall_cons, IH. reflexivity.
Qed.

(** The regular expression on the lowercased input is the syntactic rule. *)
Lemma addressRegex_test_lowercased (s : string) :
  ChainAddress.addressRegex_test (JS.toLocaleLowerCase s) = true ↔
  ChainAddress.WellFormedAddress s.
Proof.
  unfold ChainAddress.WellFormedAddress.
  destruct s as [| c0 [| c1 rest]];
    cbn [ChainAddress.addressRegex_test JS.toLocaleLowerCase JS.mapChars].
  - split; [discriminate | intros (x & d & H & _); discriminate H].
  - split; [discriminate | intros (x & d & H & _); discriminate H].
  - fold (JS.toLocaleLowerCase rest). unfold JS.toLocaleLowerCase.
    rewrite !andb_true_iff, !Ascii.eqb_eq, toLowerChar_zero, toLowerChar_x.
    rewrite matchClassTimes_spec, mapChars_length, Forall_mapChars.
    split.
    + intros [[-> Hx] [Hl Hf]]. exists c1, rest. repeat split; try done.
      eapply Forall_impl; [exact Hf |]. intros c Hc. simpl in Hc.
      by rewrite <- isLowerHexDigit_toLowerChar.
    + intros (x & d & Heq & Hx & Hl & Hf). injection Heq as -> -> ->.
      repeat split; try done.
      eapply Forall_impl; [exact Hf |]. intros c Hc. simpl.
      by rewrite isLowerHexDigit_toLowerChar.
Qed.

End StringFacts.

(** ** chain-address.ts: the address predicate and its cache *)

Section IsAddressFacts.

Import ChainAddress.

Lemma assoc_Some_elem {V : Type} (k : string) (v : V) (l : list (string * V)) :
  assoc k l = Some v → (k, v) ∈ l.
Proof.
  induction l as [| [k' v'] l IH]; simpl; [discriminate |].
  destruct (String.eqb k k') eqn:E.
  - apply String.eqb_eq in E as <-. intros [= ->]. constructor.
  - intros H. constructor. auto.
Qed.

Lemma setMostRecentlyUsed_sound (k : string) (c : LruCache bool) :
  cacheSound c → cacheSound (setMostRecentlyUsed k (addressRegex_test k) c).
Proof.
  intros Hc k' v' Hin. unfold setMostRecentlyUsed in Hin. simpl in Hin.
  apply elem_of_app in Hin as [Hin | Hin].
  - unfold without in Hin. apply list_elem_of_filter in Hin as [_ Hin]. by apply Hc.
  - apply list_elem_of_singleton in Hin. by injection Hin as -> ->.
Qed.

Lemma pruneToMaxSize_sound (c : LruCache bool) :
  cacheSound c → cacheSound (pruneToMaxSize c).
Proof.
  intros Hc. unfold pruneToMaxSize.
  destruct (maxSize c <? N.of_nat (length (entries c)))%N; [| exact Hc].
  intros k v Hin. simpl in Hin. apply Hc.
  destruct (entries c) as [| e l]; [exact Hin | by constructor].
Qed.

(** On a sound cache [isAddress] answers what the regular expression
    answers on the lowercased input, and it leaves the cache sound. *)
Lemma isAddress_sound (s : string) (c : LruCache bool) :
  cacheSound c →
  (isAddress s c).1 = addressRegex_test (JS.toLocaleLowerCase s) ∧
  cacheSound (isAddress s c).2.
Proof.
  intros Hc. unfold isAddress, LruCache_get, LruCache_set.
  destruct (assoc (JS.toLocaleLowerCase s) (entries c)) as [v |] eqn:E; simpl.
  - apply assoc_Some_elem in E. pose proof (Hc _ _ E) as ->. split; [reflexivity |].
    by apply setMostRecentlyUsed_sound.
  - split; [reflexivity |].
    by apply pruneToMaxSize_sound, setMostRecentlyUsed_sound.
Qed.

Lemma fold_isAddress_sound (calls : list string) (c : LruCache bool) :
  cacheSound c → cacheSound (fold_left (λ cache s, (isAddress s cache).2) calls c).
Proof.
  revert c; induction calls as [| s calls IH]; intros c Hc; simpl; [exact Hc |].
  apply IH. by apply isAddress_sound.
Qed.

Lemma cacheAfter_sound (calls : list string) : cacheSound (cacheAfter calls).
Proof.
  apply fold_isAddress_sound. intros k v Hin. simpl in Hin. by apply elem_of_nil in Hin.
Qed.

(** C8. [isAddress] is a correct syntactic predicate whatever the cache
    holds: after any sequence of earlier calls, [isAddress s] is true exactly
    when [s] is [0x] (in either case) followed by exactly 40 hexadecimal
    digits, and the answer is the same after any other sequence of calls. *)
Theorem isAddress_correct_and_cache_transparent (calls : list string) (s : string) :
  ((isAddress s (cacheAfter calls)).1 = true ↔ WellFormedAddress s) ∧
  (∀ calls' : list string,
     (isAddress s (cacheAfter calls')).1 = (isAddress s (cacheAfter calls)).1).
Proof.
  split.
  - destruct (isAddress_sound s _ (cacheAfter_sound calls)) as [-> _].
    apply addressRegex_test_lowercased.
  - intros calls'.
    destruct (isAddress_sound s _ (cacheAfter_sound calls)) as [-> _].
    destruct (isAddress_sound s _ (cacheAfter_sound calls')) as [-> _].
    reflexivity.
Qed.

(** The cache never holds more than its capacity. *)
Lemma cacheAfter_bounded (calls : list string) :
  (N.of_nat (length (entries (cacheAfter calls))) <= 8192)%N ∧
  maxSize (cacheAfter calls) = 8192%N.
Proof.
  unfold cacheAfter.
  assert (H0 : (N.of_nat (length (entries isAddressCache)) <= 8192)%N
               ∧ maxSize isAddressCache = 8192%N) by (simpl; split; [lia | reflexivity]).
  revert H0. generalize isAddressCache as c.
  induction calls as [| s calls IH]; intros c Hc; simpl; [exact Hc |].
  apply IH. destruct Hc as [Hlen Hmax].
  unfold isAddress, LruCache_get, LruCache_set, pruneToMaxSize, setMostRecentlyUsed.
  destruct (assoc (JS.toLocaleLowerCase s) (entries c)) as [v |] eqn:E; simpl.
  - split; [| exact Hmax].
    apply assoc_Some_elem in E.
    rewrite length_app. simpl.
    assert (length (without (JS.toLocaleLowerCase s) (entries c)) < length (entries c)); [| lia].
    unfold without. clear -E. induction (entries c) as [| [k' v'] l IH]; [by apply elem_of_nil in E |].
    rewrite filter_cons. simpl. destruct (decide _) as [Hd | Hd].
    + simpl. apply elem_of_cons in E as [E | E].
      * injection E as <- <-. rewrite String.eqb_refl in Hd. discriminate Hd.
      * specialize (IH E). lia.
    + pose proof (length_filter (λ e : string * bool, negb (String.eqb (JS.toLocaleLowerCase s) e.1) = true) l).
      simpl in *. lia.
  - destruct (N.ltb_spec (maxSize c)
      (N.of_nat (length (without (JS.toLocaleLowerCase s) (entries c) ++ [(JS.toLocaleLowerCase s, addressRegex_test (JS.toLocaleLowerCase s))]))));
      simpl; (split; [| exact Hmax]).
    + pose proof (length_filter (λ e : string * bool, negb (String.eqb (JS.toLocaleLowerCase s) e.1) = true) (entries c)) as Hf.
      fold (without (JS.toLocaleLowerCase s) (entries c)) in Hf.
      destruct (without (JS.toLocaleLowerCase s) (entries c) ++ _) as [| e l] eqn:El.
      * simpl. lia.
      * assert (Hl : length (e :: l) = S (length (without (JS.toLocaleLowerCase s) (entries c)))).
        { rewrite <- El, length_app. simpl. lia. }
        simpl in Hl. simpl. lia.
    + lia.
Qed.

End IsAddressFacts.

(** ** chain-address.ts: the key *)

Section KeyFacts.

Import ChainAddress.

Lemma numberToString_inj (n m : N) :
  JS.numberToString n = JS.numberToString m → n = m.
Proof.
  unfold JS.numberToString. intros H.
  apply DecimalN.Unsigned.to_uint_inj.
  assert (Hs : Some (N.to_uint n) = Some (N.to_uint m)).
  { rewrite <- !NilEmpty.usu. by rewrite H. }
  by injection Hs.
Qed.

Lemma Number_numberToString (n : N) : JS.Number (JS.numberToString n) = n.
Proof.
  unfold JS.Number, JS.numberToString.
  rewrite NilEmpty.usu. apply DecimalN.Unsigned.of_to.
Qed.

Lemma string_of_uint_no_underscore (d : Decimal.uint) :
  Forall (λ c, c ≠ "_"%char) (String.list_ascii_of_string (NilEmpty.string_of_uint d)).
Proof.
  induction d; simpl; constructor; (discriminate || assumption).
Qed.

(** A separator that occurs in neither prefix splits in one way only. *)
Lemma append_separator_inj (sep : ascii) (s1 s2 t1 t2 : string) :
  Forall (λ c, c ≠ sep) (String.list_ascii_of_string s1) →
  Forall (λ c, c ≠ sep) (String.list_ascii_of_string s2) →
  s1 +:+ String sep t1 = s2 +:+ String sep t2 →
  s1 = s2 ∧ t1 = t2.
Proof.
  revert s2; induction s1 as [| c s1 IH]; intros [| c' s2] H1 H2 Heq; simpl in *.
  - by injection Heq as ->.
  - injection Heq as -> _. apply Forall_cons in H2 as [H2 _]. by destruct H2.
  - injection Heq as -> _. apply Forall_cons in H1 as [H1 _]. by destruct H1.
  - injection Heq as -> Heq.
    apply Forall_cons in H1 as [_ H1]. apply Forall_cons in H2 as [_ H2].
    destruct (IH s2 H1 H2 Heq) as [-> ->]. done.
Qed.

(** What the key is: the decimal chain identifier, an underscore, and the
    address from its third character on, as written. *)
Lemma getChainAddressKey_format (c : N) (c0 c1 : ascii) (rest : string) :
  getChainAddressKey (mkChainAddress c (String c0 (String c1 rest)))
  = JS.numberToString c +:+ "_" +:+ rest.
Proof. reflexivity. Qed.

(** Two chain addresses have the same key exactly when their chain
    identifiers are equal and their addresses agree, character for
    character, from the third character on. *)
Lemma getChainAddressKey_eq_iff (a b : ChainAddress) :
  getChainAddressKey a = getChainAddressKey b ↔
  chainId a = chainId b ∧ JS.slice 2 (address a) = JS.slice 2 (address b).
Proof.
  unfold getChainAddressKey. split.
  - intros H.
    apply append_separator_inj in H as [Hn Hs];
      [| apply string_of_uint_no_underscore ..].
    split; [by apply numberToString_inj | exact Hs].
  - intros [-> ->]. reflexivity.
Qed.

(** C1. The key keeps the case of the address.  For the DAI address in its
    checksum spelling, which is well formed, the key is not lowercased, and
    it differs from the key of the same address with its hexadecimal
    letters uppercased and from the key of its lowercase spelling. *)
Theorem getChainAddressKey_case_sensitive :
  WellFormedAddress Examples.daiAddress ∧
  getChainAddressKey (mkChainAddress 1 Examples.daiAddress)
    = "1_6B175474E89094C44Da98b954EedeAC495271d0F" ∧
  getChainAddressKey (mkChainAddress 1 (withUppercaseDigits Examples.daiAddress))
    = "1_6B175474E89094C44DA98B954EEDEAC495271D0F" ∧
  getChainAddressKey (mkChainAddress 1 (JS.toLocaleLowerCase Examples.daiAddress))
    = "1_6b175474e89094c44da98b954eedeac495271d0f" ∧
  getChainAddressKey (mkChainAddress 1 Examples.daiAddress)
    ≠ getChainAddressKey (mkChainAddress 1 (withUppercaseDigits Examples.daiAddress)) ∧
  getChainAddressKey (mkChainAddress 1 Examples.daiAddress)
    ≠ getChainAddressKey (mkChainAddress 1 (JS.toLocaleLowerCase Examples.daiAddress)).
Proof.
  split; [apply addressRegex_test_lowercased; vm_compute; reflexivity |].
  repeat split; try (vm_compute; reflexivity); vm_compute; discriminate.
Qed.

End KeyFacts.

(** ** url.ts *)

Section UrlFacts.

Import Url.

Variable URL_new : string → option string → option URL.

(** The [ipfs:] case resolves path, query and fragment, as a relative
    reference, against the gateway URL that ends in the content
    identifier. *)
Lemma toHttpsUrl_ipfs (href : string) (ipfsProvider : option string) (url : URL) :
  URL_new href None = Some url →
  protocol url = "ipfs:" →
  toHttpsUrl URL_new href ipfsProvider
  = construct URL_new (pathname url +:+ search url +:+ hash url)
      (Some (default Defaults.defaultIpfsProvider ipfsProvider +:+ "/ipfs/" +:+ hostname url)).
Proof.
  intros Hurl Hp. unfold toHttpsUrl, construct at 1. rewrite Hurl, Hp. reflexivity.
Qed.

Lemma toHttpsUrl_ipns (href : string) (ipfsProvider : option string) (url : URL) :
  URL_new href None = Some url →
  protocol url = "ipns:" →
  toHttpsUrl URL_new href ipfsProvider
  = construct URL_new (pathname url +:+ search url +:+ hash url)
      (Some (default Defaults.defaultIpfsProvider ipfsProvider +:+ "/ipns/" +:+ hostname url)).
Proof.
  intros Hurl Hp. unfold toHttpsUrl, construct at 1. rewrite Hurl, Hp. reflexivity.
Qed.

(** C9. Whatever the URL parser, when the reference parses to a URL whose
    protocol is none of [https:], [ipfs:] and [ipns:], [toHttpsUrl] throws
    an error whose message names that protocol and returns no URL; when
    the protocol is [https:] it returns the parsed URL as it is. *)
Theorem toHttpsUrl_protocol_dispatch
    (href : string) (ipfsProvider : option string) (url : URL) :
  URL_new href None = Some url →
  (protocol url ∉ ["https:"; "ipfs:"; "ipns:"] →
   toHttpsUrl URL_new href ipfsProvider
   = inl (JS.Error ("Unsupported URL protocol: " +:+ protocol url))) ∧
  (protocol url = "https:" → toHttpsUrl URL_new href ipfsProvider = inr url).
Proof.
  intros Hurl. unfold toHttpsUrl, construct. rewrite Hurl. split.
  - intros Hnot.
    destruct (String.eqb_spec (protocol url) "https:") as [E | _].
    { destruct Hnot. rewrite E. set_solver. }
    destruct (String.eqb_spec (protocol url) "ipfs:") as [E | _].
    { destruct Hnot. rewrite E. set_solver. }
    destruct (String.eqb_spec (protocol url) "ipns:") as [E | _].
    { destruct Hnot. rewrite E. set_solver. }
    reflexivity.
  - intros ->. reflexivity.
Qed.

End UrlFacts.

Lemma toHttpsUrl_protocol_dispatch_witness :
  Url.toHttpsUrl Whatwg.URL_new "ftp://example.com/file.txt" None
    = inl (JS.Error "Unsupported URL protocol: ftp:") ∧
  Url.toHttpsUrl Whatwg.URL_new "https://tokens.coingecko.com/uniswap/all.json" None
    = inr (Url.mkURL "https://tokens.coingecko.com/uniswap/all.json" "https:"
             "tokens.coingecko.com" "/uniswap/all.json" "" "").
Proof.
  split.
  - refine (proj1 (toHttpsUrl_protocol_dispatch Whatwg.URL_new
                     "ftp://example.com/file.txt" None _ eq_refl) _).
    vm_compute. intros H. repeat (apply elem_of_cons in H as [H | H]; [discriminate H |]).
    by apply elem_of_nil in H.
  - exact (proj2 (toHttpsUrl_protocol_dispatch Whatwg.URL_new
                    "https://tokens.coingecko.com/uniswap/all.json" None _ eq_refl) eq_refl).
Defined.

(** C6. On [ipfs://cid/path?x=1#y] with the gateway [https://ipfs.io/],
    given or by default, [toHttpsUrl] returns [https://ipfs.io/path?x=1#y]:
    the path of the reference, which starts with a slash, replaces the path
    [//ipfs/cid] of the gateway URL, so the content identifier is not in
    the result.  The same happens for [ipns:] references that carry a path. *)
Theorem toHttpsUrl_ipfs_with_path :
  Url.toHttpsUrl Whatwg.URL_new "ipfs://cid/path?x=1#y" (Some "https://ipfs.io/")
    = inr (Url.mkURL "https://ipfs.io/path?x=1#y" "https:" "ipfs.io" "/path" "?x=1" "#y") ∧
  Url.toHttpsUrl Whatwg.URL_new "ipfs://cid/path?x=1#y" None
    = inr (Url.mkURL "https://ipfs.io/path?x=1#y" "https:" "ipfs.io" "/path" "?x=1" "#y") ∧
  Url.toHttpsUrl Whatwg.URL_new "ipns://tokens.uniswap.org/list.json" None
    = inr (Url.mkURL "https://ipfs.io/list.json" "https:" "ipfs.io" "/list.json" "" "").
Proof. repeat split; vm_compute; reflexivity. Qed.

(** Without a path the reference is empty and resolves to the gateway URL
    itself, content identifier included; this is the use in [main.ts]. *)
Lemma toHttpsUrl_ipns_without_path :
  Url.toHttpsUrl Whatwg.URL_new "ipns://tokens.uniswap.org" None
    = inr (Url.mkURL "https://ipfs.io//ipns/tokens.uniswap.org" "https:" "ipfs.io"
             "//ipns/tokens.uniswap.org" "" "").
Proof. vm_compute. reflexivity. Qed.

(** ** tokens.ts: the logo sequence *)

Section LogoFacts.

Import Tokens.

Lemma isNewSource_spec (current : list LogoImage) (s : string) :
  isNewSource current s = true ↔ mkLogoImage s ∉ current.
Proof.
  unfold isNewSource. rewrite forallb_forall. split.
  - intros H Hin. apply list_elem_of_In in Hin. specialize (H _ Hin). simpl in H.
    by rewrite String.eqb_refl in H.
  - intros Hnot [s'] Hin. simpl. apply negb_true_iff.
    destruct (String.eqb_spec s' s) as [-> |]; [| reflexivity].
    destruct Hnot. by apply list_elem_of_In.
Qed.

(** The loop appends, in their order, the sources that were not in the
    sequence when the call began. *)
Lemma pushNewSources_eq (current : list LogoImage) (newSources : list string) :
  pushNewSources current newSources
  = current ++ map mkLogoImage (filter (λ s, isNewSource current s = true) newSources).
Proof.
  unfold pushNewSources. fold (isNewSource current).
  assert (H : ∀ acc,
    fold_left (λ newLogoImages s,
       if forallb (λ image, negb (String.eqb (src image) s)) current
       then newLogoImages ++ [mkLogoImage s] else newLogoImages) newSources acc
    = acc ++ map mkLogoImage (filter (λ s, isNewSource current s = true) newSources)).
  { induction newSources as [| s l IH]; intros acc; simpl.
    - by rewrite app_nil_r.
    - rewrite IH, filter_cons. fold (isNewSource current s).
      destruct (isNewSource current s) eqn:E; destruct (decide _) as [D | D];
        try congruence.
      simpl. by rewrite <- app_assoc. }
  apply H.
Qed.

(** Order is preserved: the old sequence is a prefix of the new one. *)
Lemma pushNewSources_prefix (current : list LogoImage) (newSources : list string) :
  current `prefix_of` pushNewSources current newSources.
Proof. rewrite pushNewSources_eq. by apply prefix_app_r. Qed.

Lemma pushNewSources_elem (current : list LogoImage) (newSources : list string)
    (image : LogoImage) :
  image ∈ pushNewSources current newSources ↔
  image ∈ current ∨ (src image ∈ newSources ∧ image ∉ current).
Proof.
  rewrite pushNewSources_eq, elem_of_app, list_elem_of_fmap. split.
  - intros [H | (s & -> & Hs)]; [by left |].
    apply list_elem_of_filter in Hs as [Hnew Hs]. right. split; [exact Hs |].
    by apply isNewSource_spec.
  - intros [H | [Hs Hnot]]; [by left |]. right. exists (src image).
    destruct image as [s]. simpl in *. split; [reflexivity |].
    apply list_elem_of_filter. split; [by apply isNewSource_spec | exact Hs].
Qed.

(** Every source passed is in the sequence afterwards. *)
Lemma pushNewSources_has (current : list LogoImage) (newSources : list string) (s : string) :
  s ∈ newSources → mkLogoImage s ∈ pushNewSources current newSources.
Proof.
  intros Hs. apply pushNewSources_elem.
  destruct (decide (mkLogoImage s ∈ current)); [by left | by right].
Qed.

(** Pushing the same sources again changes nothing. *)
Lemma pushNewSources_idempotent (current : list LogoImage) (newSources : list string) :
  pushNewSources (pushNewSources current newSources) newSources
  = pushNewSources current newSources.
Proof.
  rewrite (pushNewSources_eq (pushNewSources current newSources)).
  assert (H : ∀ l, l ⊆ newSources →
    filter (λ s, isNewSource (pushNewSources current newSources) s = true) l = []).
  { induction l as [| s l IH]; intros Hl; [reflexivity |].
    rewrite filter_cons. destruct (decide _) as [D | D].
    - apply isNewSource_spec in D. destruct D. apply pushNewSources_has.
      apply Hl. constructor.
    - apply IH. intros x Hx. apply Hl. by constructor. }
  rewrite H by done. by rewrite app_nil_r.
Qed.

(** A call whose sources are pairwise distinct keeps the sequence free of
    duplicates. *)
Lemma pushNewSources_NoDup (current : list LogoImage) (newSources : list string) :
  NoDup current → NoDup newSources → NoDup (pushNewSources current newSources).
Proof.
  intros Hc Hn. rewrite pushNewSources_eq. apply NoDup_app. split; [exact Hc |]. split.
  - intros image Hin Hin'. apply list_elem_of_fmap in Hin' as (s & -> & Hs).
    apply list_elem_of_filter in Hs as [Hnew _]. by apply isNewSource_spec in Hnew.
  - apply NoDup_fmap_2.
    + intros s1 s2 [= ->]. reflexivity.
    + by apply NoDup_filter.
Qed.

End LogoFacts.

(** ** tokens.ts: the store *)

Section StoreFacts.

Import Tokens ChainAddress.

(** [addTokenLogoImageSources] on a key that is bound: the object it is
    bound to receives the new sequence. *)
Lemma addTokenLogoImageSources_bound
    (chainAddress : ChainAddress) (newSources : list string)
    (st : TokenMetadataStore) (r : ref) :
  tokensByAddress st !! getChainAddressKey chainAddress = Some r →
  addTokenLogoImageSources chainAddress newSources st
  = (Return r,
     mkStore (tokenLists st) (tokensByAddress st)
       (<[r := mkTokenMetadata (pushNewSources (logoImagesOf st r) newSources)]>
          (objects st))).
Proof.
  intros H. unfold addTokenLogoImageSources, mbind, M_bind, tokensByAddress_get, gets.
  rewrite H. reflexivity.
Qed.

(** On a key that is not bound: a new object, bound to the key, holds the
    sources. *)
Lemma addTokenLogoImageSources_fresh
    (chainAddress : ChainAddress) (newSources : list string) (st : TokenMetadataStore) :
  tokensByAddress st !! getChainAddressKey chainAddress = None →
  addTokenLogoImageSources chainAddress newSources st
  = (Return (length (objects st)),
     mkStore (tokenLists st)
       (<[getChainAddressKey chainAddress := length (objects st)]> (tokensByAddress st))
       (objects st ++ [mkTokenMetadata (pushNewSources [] newSources)])).
Proof.
  intros H. unfold addTokenLogoImageSources, mbind, M_bind, tokensByAddress_get, gets.
  rewrite H. simpl. unfold logoImagesOf. simpl.
  rewrite lookup_app_r by lia. rewrite Nat.sub_diag. simpl.
  f_equal. f_equal.
  replace (length (objects st)) with (length (objects st) + 0) at 1 by lia.
  rewrite insert_app_r. reflexivity.
Qed.

Lemma logoImagesOf_insert (tl : list (string * TokenListMetadata))
    (tba : gmap ChainAddressKey ref) (st : TokenMetadataStore)
    (r r' : ref) (images : list LogoImage) :
  logoImagesOf (mkStore tl tba (<[r := mkTokenMetadata images]> (objects st))) r'
  = if decide (r = r' ∧ r < length (objects st)) then images else logoImagesOf st r'.
Proof.
  unfold logoImagesOf. simpl. rewrite list_lookup_insert.
  destruct (decide (r = r' ∧ r < length (objects st))) as [[-> Hlt] | Hn];
    reflexivity.
Qed.

Lemma logoImagesOf_app (tl : list (string * TokenListMetadata))
    (tba : gmap ChainAddressKey ref) (st : TokenMetadataStore)
    (r : ref) (images : list LogoImage) :
  logoImagesOf (mkStore tl tba (objects st ++ [mkTokenMetadata images])) r
  = if decide (r = length (objects st)) then images else logoImagesOf st r.
Proof.
  unfold logoImagesOf. simpl. destruct (decide (r = length (objects st))) as [-> | Hn].
  - rewrite lookup_app_r by lia. by rewrite Nat.sub_diag.
  - destruct (decide (r < length (objects st))).
    + by rewrite lookup_app_l.
    + rewrite !(lookup_ge_None_2) by (rewrite ?length_app; simpl; lia). reflexivity.
Qed.

Lemma extends_refl (st : TokenMetadataStore) : extends st st.
Proof. by split. Qed.

Lemma extends_trans (st1 st2 st3 : TokenMetadataStore) :
  extends st1 st2 → extends st2 st3 → extends st1 st3.
Proof.
  intros [B1 L1 O1 T1] [B2 L2 O2 T2]. split.
  - auto.
  - intros r. transitivity (logoImagesOf st2 r); auto.
  - lia.
  - congruence.
Qed.

(** Having a logo at a key is kept by every extension. *)
Lemma hasLogoAt_extends (key : ChainAddressKey) (uri : string)
    (st st' : TokenMetadataStore) :
  hasLogoAt key uri st → extends st st' → hasLogoAt key uri st'.
Proof.
  intros (r & Hb & Hin) [B L _ _]. exists r. split; [auto |].
  destruct (L r) as [k ->]. apply elem_of_app. by left.
Qed.

(** [addTokenLogoImageSources] never throws; it extends the store, keeps
    the invariant, returns the object bound to the key, and that object
    has every source passed. *)
Lemma addTokenLogoImageSources_runs
    (chainAddress : ChainAddress) (newSources : list string)
    (I : TokenMetadataStore → Prop) :
  (∀ st st', I st → extends st st' → I st') →
  runs (λ st, storeInv st ∧ I st)
    (addTokenLogoImageSources chainAddress newSources)
    (λ r st',
       tokensByAddress st' !! getChainAddressKey chainAddress = Some r ∧
       r < length (objects st') ∧
       ∀ s, s ∈ newSources → mkLogoImage s ∈ logoImagesOf st' r).
Proof.
  intros HI st [[Hrefs Hkeys Hhref] HIst].
  destruct (tokensByAddress st !! getChainAddressKey chainAddress) as [r |] eqn:E.
  - rewrite (addTokenLogoImageSources_bound _ _ _ _ E).
    pose proof (Hrefs _ _ E) as Hlt.
    assert (Hext : extends st
      (mkStore (tokenLists st) (tokensByAddress st)
         (<[r := mkTokenMetadata (pushNewSources (logoImagesOf st r) newSources)]>
            (objects st)))).
    { split; simpl; [auto | | by rewrite length_insert | reflexivity].
      intros r'. rewrite logoImagesOf_insert. destruct (decide _) as [[-> _] | _].
      - apply pushNewSources_prefix.
      - reflexivity. }
    eexists _, _. split; [reflexivity |]. split; [split |]; [| by eauto | split].
    + split; simpl; [| done | done]. intros k r' Hk. rewrite length_insert. eauto.
    + exact Hext.
    + simpl. split; [exact E |]. split; [by rewrite length_insert |].
      intros s Hs. rewrite logoImagesOf_insert, decide_True by done.
      by apply pushNewSources_has.
  - rewrite (addTokenLogoImageSources_fresh _ _ _ E).
    assert (Hext : extends st
      (mkStore (tokenLists st)
         (<[getChainAddressKey chainAddress := length (objects st)]> (tokensByAddress st))
         (objects st ++ [mkTokenMetadata (pushNewSources [] newSources)]))).
    { split; simpl.
      - intros k r Hk. rewrite lookup_insert_ne; [exact Hk |]. intros <-. congruence.
      - intros r. rewrite logoImagesOf_app. destruct (decide _) as [-> | _]; [| reflexivity].
        unfold logoImagesOf. rewrite lookup_ge_None_2 by lia. apply prefix_nil.
      - rewrite length_app. lia.
      - reflexivity. }
    eexists _, _. split; [reflexivity |]. split; [split |]; [| by eauto | split].
    + split; simpl; [| done | done]. intros k r Hk. rewrite length_app. simpl.
      rewrite lookup_insert in Hk. destruct (decide _) as [_ | _].
      * injection Hk as <-. lia.
      * apply Hrefs in Hk. lia.
    + exact Hext.
    + simpl. split; [by rewrite lookup_insert_eq |]. split; [rewrite length_app; simpl; lia |].
      intros s Hs. rewrite logoImagesOf_app, decide_True by done.
      by apply pushNewSources_has.
Qed.

(** Loops: when every iteration runs, the loop runs, and what an
    iteration establishes, if extensions keep it, holds at the end. *)
Lemma forOf_runs {A : Type} (I : TokenMetadataStore → Prop)
    (Q : A → TokenMetadataStore → Prop) (body : A → M unit) (xs : list A) :
  (∀ x st st', Q x st → extends st st' → Q x st') →
  (∀ x, x ∈ xs → runs I (body x) (λ _ st', Q x st')) →
  runs I (forOf xs body) (λ _ st', ∀ x, x ∈ xs → Q x st').
Proof.
  intros HQ. induction xs as [| x xs IH]; intros Hbody st HI.
  - exists tt, st. split; [reflexivity |]. split; [exact HI |].
    split; [apply extends_refl |]. intros x Hx. by apply elem_of_nil in Hx.
  - destruct (Hbody x ltac:(constructor) st HI) as ([] & st1 & E1 & HI1 & Hext1 & HQ1).
    destruct (IH (λ y Hy, Hbody y ltac:(by constructor)) st1 HI1)
      as ([] & st2 & E2 & HI2 & Hext2 & HQ2).
    exists tt, st2. split.
    { cbn [forOf]. unfold mbind, M_bind. rewrite E1. exact E2. }
    split; [exact HI2 |]. split; [by eapply extends_trans |].
    intros y Hy. apply elem_of_cons in Hy as [-> | Hy]; [by eapply HQ | by apply HQ2].
Qed.

(** The bridging step on a key that is bound: the binding is left alone
    and the object it is bound to receives the logo. *)
Lemma linkBridgedToken_bound (tokenMetadata : ref) (uri chainIdString : string)
    (bridgeInfo : TokenListSchema.BridgeInfo) (st : TokenMetadataStore) (r0 : ref) :
  tokensByAddress st !! getChainAddressKey
    (mkChainAddress (JS.Number chainIdString) (TokenListSchema.tokenAddress bridgeInfo))
    = Some r0 →
  linkBridgedToken tokenMetadata uri (chainIdString, bridgeInfo) st
  = (Return tt,
     mkStore (tokenLists st) (tokensByAddress st)
       (<[r0 := mkTokenMetadata (pushNewSources (logoImagesOf st r0) [uri])]>
          (objects st))).
Proof.
  intros H. unfold linkBridgedToken, mbind, M_bind, tokensByAddress_has, gets.
  rewrite H. rewrite bool_decide_eq_true_2 by eauto. cbn [negb mret M_ret].
  rewrite (addTokenLogoImageSources_bound _ _ _ _ H). reflexivity.
Qed.

(** The bridging step on a key that is not bound: the key is bound to the
    object of the token, and that object receives the logo. *)
Lemma linkBridgedToken_unbound (tokenMetadata : ref) (uri chainIdString : string)
    (bridgeInfo : TokenListSchema.BridgeInfo) (st : TokenMetadataStore) :
  tokensByAddress st !! getChainAddressKey
    (mkChainAddress (JS.Number chainIdString) (TokenListSchema.tokenAddress bridgeInfo))
    = None →
  linkBridgedToken tokenMetadata uri (chainIdString, bridgeInfo) st
  = (Return tt,
     mkStore (tokenLists st)
       (<[getChainAddressKey
            (mkChainAddress (JS.Number chainIdString)
               (TokenListSchema.tokenAddress bridgeInfo)) := tokenMetadata]>
          (tokensByAddress st))
       (<[tokenMetadata :=
            mkTokenMetadata (pushNewSources (logoImagesOf st tokenMetadata) [uri])]>
          (objects st))).
Proof.
  intros H. unfold linkBridgedToken, mbind, M_bind, tokensByAddress_has, gets.
  rewrite H. rewrite bool_decide_eq_false_2 by (intros [? ?]; discriminate).
  cbn [negb]. unfold tokensByAddress_set, modify.
  rewrite (addTokenLogoImageSources_bound _ _ _ tokenMetadata)
    by (simpl; apply lookup_insert_eq).
  reflexivity.
Qed.

(** Writing a grown logo sequence into an object, with bindings added
    and none changed, extends the store and keeps its invariant. *)
Lemma update_extends (st : TokenMetadataStore) (tba : gmap ChainAddressKey ref)
    (r : ref) (newSources : list string) :
  (∀ k r', tokensByAddress st !! k = Some r' → tba !! k = Some r') →
  extends st
    (mkStore (tokenLists st) tba
       (<[r := mkTokenMetadata (pushNewSources (logoImagesOf st r) newSources)]>
          (objects st))).
Proof.
  intros Hb. split; simpl; [exact Hb | | by rewrite length_insert | reflexivity].
  intros r'. rewrite logoImagesOf_insert. destruct (decide _) as [[-> _] | _].
  - apply pushNewSources_prefix.
  - reflexivity.
Qed.

Lemma update_storeInv (st : TokenMetadataStore) (tba : gmap ChainAddressKey ref)
    (r : ref) (images : list LogoImage) :
  storeInv st →
  (∀ k r', tba !! k = Some r' → r' < length (objects st)) →
  storeInv (mkStore (tokenLists st) tba (<[r := mkTokenMetadata images]> (objects st))).
Proof.
  intros [Hrefs Hkeys Hhref] Hb. split; simpl; [| done | done].
  intros k r' Hk. rewrite length_insert. eauto.
Qed.

(** The bridging step, on a store that satisfies the invariant and for a
    token object that exists: it returns; the bridged key ends up bound to
    an object that has the logo; a key that was bound keeps its object and
    a key that was not is bound to the object of the token; no other key
    changes. *)
Lemma linkBridgedToken_step (tokenMetadata : ref) (uri chainIdString : string)
    (bridgeInfo : TokenListSchema.BridgeInfo) (st : TokenMetadataStore) :
  let key := getChainAddressKey
    (mkChainAddress (JS.Number chainIdString) (TokenListSchema.tokenAddress bridgeInfo)) in
  storeInv st → tokenMetadata < length (objects st) →
  ∃ st', linkBridgedToken tokenMetadata uri (chainIdString, bridgeInfo) st = (Return tt, st')
    ∧ storeInv st' ∧ extends st st' ∧ hasLogoAt key uri st'
    ∧ (∀ k, k ≠ key → tokensByAddress st' !! k = tokensByAddress st !! k)
    ∧ (tokensByAddress st !! key = None → tokensByAddress st' !! key = Some tokenMetadata).
Proof.
  intros key Hinv Hvalid.
  destruct (tokensByAddress st !! key) as [r0 |] eqn:E.
  - eexists. split; [by apply linkBridgedToken_bound |].
    pose proof (inv_refs _ Hinv _ _ E) as Hlt.
    split; [apply update_storeInv; [done | by apply Hinv] |].
    split; [by apply update_extends |].
    split; [| split; [done | discriminate]].
    exists r0. split; [exact E |].
    rewrite logoImagesOf_insert, decide_True by done.
    apply pushNewSources_has. constructor.
  - eexists. split; [by apply linkBridgedToken_unbound |]. fold key.
    split.
    { apply update_storeInv; [done |]. intros k r' Hk.
      rewrite lookup_insert in Hk. destruct (decide _).
      - by injection Hk as <-.
      - by eapply inv_refs. }
    split.
    { apply update_extends. intros k r' Hk. rewrite lookup_insert_ne; [done |].
      intros <-. congruence. }
    split; [| split].
    + exists tokenMetadata. simpl. split; [apply lookup_insert_eq |].
      rewrite logoImagesOf_insert, decide_True by done.
      apply pushNewSources_has. constructor.
    + intros k Hk. simpl. by rewrite lookup_insert_ne.
    + intros _. simpl. apply lookup_insert_eq.
Qed.

(** A call of [addTokenLogoImageSources] changes no binding but that of
    its own key. *)
Lemma addTokenLogoImageSources_frame
    (chainAddress : ChainAddress) (newSources : list string)
    (st st' : TokenMetadataStore) (r : ref) :
  addTokenLogoImageSources chainAddress newSources st = (Return r, st') →
  ∀ k, k ≠ getChainAddressKey chainAddress →
       tokensByAddress st' !! k = tokensByAddress st !! k.
Proof.
  intros Hrun k Hk.
  destruct (tokensByAddress st !! getChainAddressKey chainAddress) as [r0 |] eqn:E.
  - rewrite (addTokenLogoImageSources_bound _ _ _ _ E) in Hrun.
    by injection Hrun as _ <-.
  - rewrite (addTokenLogoImageSources_fresh _ _ _ E) in Hrun.
    injection Hrun as _ <-. simpl. by rewrite lookup_insert_ne.
Qed.

(** The loop over the bridge targets of one token: it returns; every
    target ends up with the logo; and a key that was unbound or bound to the
    object of the token is, at the end, unbound or bound to that object. *)
Lemma bridging_loop (tokenMetadata : ref) (uri : string)
    (record : list (N * TokenListSchema.BridgeInfo)) (st : TokenMetadataStore) :
  storeInv st → tokenMetadata < length (objects st) →
  ∃ st',
    forOf (TokenListSchema.Object_entries record) (linkBridgedToken tokenMetadata uri) st
      = (Return tt, st')
    ∧ storeInv st' ∧ extends st st'
    ∧ (∀ n b, (n, b) ∈ record →
         hasLogoAt (getChainAddressKey
                      (mkChainAddress n (TokenListSchema.tokenAddress b))) uri st')
    ∧ (∀ target,
         tokensByAddress st !! target = None ∨
         tokensByAddress st !! target = Some tokenMetadata →
         tokensByAddress st' !! target = None ∨
         tokensByAddress st' !! target = Some tokenMetadata).
Proof.
  revert st. induction record as [| [n b] record IH]; intros st Hinv Hvalid.
  - exists st. split; [reflexivity |]. split; [done |]. split; [apply extends_refl |].
    split; [| done]. intros n b Hin. by apply elem_of_nil in Hin.
  - destruct (linkBridgedToken_step tokenMetadata uri (JS.numberToString n) b st Hinv Hvalid)
      as (st1 & E1 & Hinv1 & Hext1 & Hlogo1 & Hframe1 & Hnew1).
    rewrite Number_numberToString in Hlogo1, Hframe1, Hnew1.
    assert (Hvalid1 : tokenMetadata < length (objects st1)).
    { pose proof (ext_objects _ _ Hext1). lia. }
    destruct (IH st1 Hinv1 Hvalid1) as (st2 & E2 & Hinv2 & Hext2 & Hlogo2 & HJ2).
    exists st2. split.
    { cbn [TokenListSchema.Object_entries map forOf fst snd].
      unfold mbind, M_bind. rewrite E1. exact E2. }
    split; [done |]. split; [by eapply extends_trans |]. split.
    + intros n' b' Hin. apply elem_of_cons in Hin as [[= -> ->] | Hin].
      * by eapply hasLogoAt_extends.
      * by apply Hlogo2.
    + intros target HJ. apply HJ2.
      destruct (decide (target =
        getChainAddressKey (mkChainAddress n (TokenListSchema.tokenAddress b))))
        as [-> | Hne].
      * right. destruct HJ as [HJ | HJ]; [by apply Hnew1 | by apply Hext1].
      * by rewrite Hframe1.
Qed.

(** One iteration of the loop over the tokens, for a token whose
    [logoURI] is absent or does not start with [https://]: it returns and
    leaves the whole store as it was. *)
Lemma ingestToken_without_https_logo
    (token : TokenListSchema.TokenInfo) (st : TokenMetadataStore) :
  (TokenListSchema.logoURI token = None ∨
   ∃ uri, TokenListSchema.logoURI token = Some uri ∧ Url.isHttpsUrl uri = false) →
  ingestToken token st = (Return tt, st).
Proof.
  intros H. unfold ingestToken, acceptedLogo.
  destruct H as [-> | (uri & -> & ->)]; [reflexivity |].
  by rewrite andb_false_r.
Qed.

End StoreFacts.

Lemma ingestToken_without_https_logo_witness :
  Tokens.ingestToken
    (TokenListSchema.mkTokenInfo 1 Examples.daiAddress "Dai Stablecoin" "DAI" 18
       (Some "ipfs://cid/dai.png")
       (Some (TokenListSchema.mkExtensions
                (Some [(8453%N, TokenListSchema.mkBridgeInfo Examples.daiOnBase)]))))
    Tokens.newStore
  = (Tokens.Return tt, Tokens.newStore).
Proof.
  apply ingestToken_without_https_logo. right. exists "ipfs://cid/dai.png".
  split; reflexivity.
Defined.

(** ** tokens.ts: ingestion of one token *)

Section IngestFacts.

Import Tokens ChainAddress.

Lemma newStore_inv : storeInv newStore.
Proof.
  split; simpl.
  - intros k r H. by rewrite lookup_empty in H.
  - constructor.
  - intros k m H. by apply elem_of_nil in H.
Qed.

(** One iteration of the loop over the tokens, for a token with an
    accepted logo: it returns, into an extension; the token's own key has
    the logo, and so has every bridge target; a bridge target that had no
    entry is bound to the very object of the token's own key. *)
Lemma ingestToken_step (token : TokenListSchema.TokenInfo) (uri : string)
    (st : TokenMetadataStore) :
  let ownKey := getChainAddressKey
    (mkChainAddress (TokenListSchema.chainId token) (TokenListSchema.address token)) in
  storeInv st → acceptedLogo token = Some uri →
  ∃ st', ingestToken token st = (Return tt, st')
    ∧ storeInv st' ∧ extends st st' ∧ hasLogoAt ownKey uri st'
    ∧ ∀ record n b, bridgeInfoOf token = Some record → (n, b) ∈ record →
        let key := getChainAddressKey (mkChainAddress n (TokenListSchema.tokenAddress b)) in
        hasLogoAt key uri st' ∧
        (tokensByAddress st !! key = None →
         ∃ tokenMetadata,
           tokensByAddress st' !! ownKey = Some tokenMetadata ∧
           tokensByAddress st' !! key = Some tokenMetadata ∧
           mkLogoImage uri ∈ logoImagesOf st' tokenMetadata).
Proof.
  intros ownKey Hinv Hlogo. unfold ingestToken. rewrite Hlogo.
  destruct (addTokenLogoImageSources_runs
              (mkChainAddress (TokenListSchema.chainId token) (TokenListSchema.address token))
              [uri] (λ _, True) ltac:(done) st ltac:(done))
    as (tm & st1 & E1 & [Hinv1 _] & Hext1 & Hown1 & Hvalid1 & Hsrc1).
  fold ownKey in Hown1.
  assert (Hlogo1 : hasLogoAt ownKey uri st1).
  { exists tm. split; [done |]. apply Hsrc1. constructor. }
  unfold mbind at 1, M_bind at 1. rewrite E1.
  destruct (bridgeInfoOf token) as [record |] eqn:Hrec.
  - destruct (bridging_loop tm uri record st1 Hinv1 Hvalid1)
      as (st2 & E2 & Hinv2 & Hext2 & Hlogo2 & HJ2).
    exists st2. split; [exact E2 |]. split; [done |].
    split; [by eapply extends_trans |].
    split; [by eapply hasLogoAt_extends |].
    intros record' n b [= <-] Hin. cbv zeta.
    set (key := getChainAddressKey (mkChainAddress n (TokenListSchema.tokenAddress b))).
    split; [by apply Hlogo2 |].
    intros Hnone. exists tm.
    assert (Hown2 : tokensByAddress st2 !! ownKey = Some tm) by by apply Hext2.
    assert (Htm2 : mkLogoImage uri ∈ logoImagesOf st2 tm).
    { destruct (ext_logos _ _ Hext2 tm) as [k ->]. apply elem_of_app. left.
      apply Hsrc1. constructor. }
    split; [done |]. split; [| done].
    destruct (decide (key = ownKey)) as [-> | Hne]; [done |].
    assert (HJ1 : tokensByAddress st1 !! key = None ∨ tokensByAddress st1 !! key = Some tm).
    { left. rewrite (addTokenLogoImageSources_frame _ _ _ _ _ E1) by done. exact Hnone. }
    destruct (Hlogo2 n b Hin) as (r & Hr & _). fold key in Hr.
    destruct (HJ2 key HJ1) as [HJ | HJ]; congruence.
  - exists st1. split; [reflexivity |]. split; [done |]. split; [done |].
    split; [done |]. intros record n b [=].
Qed.

(** Every iteration of the loop over the tokens returns, into an
    extension that keeps the invariant, and with the logos in place. *)
Lemma ingestToken_runs (token : TokenListSchema.TokenInfo) :
  runs storeInv (ingestToken token)
    (λ _ st', ∀ uri, acceptedLogo token = Some uri →
       hasLogoAt (getChainAddressKey
                    (mkChainAddress (TokenListSchema.chainId token)
                       (TokenListSchema.address token))) uri st'
       ∧ ∀ record n b, bridgeInfoOf token = Some record → (n, b) ∈ record →
           hasLogoAt (getChainAddressKey
                        (mkChainAddress n (TokenListSchema.tokenAddress b))) uri st').
Proof.
  intros st Hinv. destruct (acceptedLogo token) as [uri |] eqn:Hlogo.
  - destruct (ingestToken_step token uri st Hinv Hlogo)
      as (st' & E & Hinv' & Hext & Hown & Hbridge).
    exists tt, st'. split; [done |]. split; [done |]. split; [done |].
    intros uri' [= <-]. split; [done |].
    intros record n b Hrec Hin. by apply (Hbridge record n b Hrec Hin).
  - exists tt, st. split; [by unfold ingestToken; rewrite Hlogo |].
    split; [done |]. split; [apply extends_refl |]. intros uri [=].
Qed.

(** One iteration of the loop over the tokens, for a token with an
    accepted logo and each bridge target of its [bridgeInfo]: the
    iteration returns; a bridged key that already had an entry still maps
    to that same object afterwards, and that object has the logo among its
    sources; a bridged key that had no entry is bound to the object of the
    token's own key, which has the logo. *)
Lemma bridging_first_sight_alias_and_logo
    (token : TokenListSchema.TokenInfo) (uri : string)
    (record : list (N * TokenListSchema.BridgeInfo))
    (n : N) (b : TokenListSchema.BridgeInfo) (st : TokenMetadataStore) :
  let ownKey := getChainAddressKey
    (mkChainAddress (TokenListSchema.chainId token) (TokenListSchema.address token)) in
  let key := getChainAddressKey (mkChainAddress n (TokenListSchema.tokenAddress b)) in
  storeInv st →
  acceptedLogo token = Some uri →
  bridgeInfoOf token = Some record →
  (n, b) ∈ record →
  ∃ st', ingestToken token st = (Return tt, st')
    ∧ (∀ existing, tokensByAddress st !! key = Some existing →
         tokensByAddress st' !! key = Some existing ∧
         mkLogoImage uri ∈ logoImagesOf st' existing)
    ∧ (tokensByAddress st !! key = None →
         ∃ canonical,
           tokensByAddress st' !! ownKey = Some canonical ∧
           tokensByAddress st' !! key = Some canonical ∧
           mkLogoImage uri ∈ logoImagesOf st' canonical).
Proof.
  intros ownKey key Hinv Hlogo Hrec Hin.
  destruct (ingestToken_step token uri st Hinv Hlogo)
    as (st' & E & Hinv' & Hext & Hown & Hbridge).
  destruct (Hbridge record n b Hrec Hin) as [(r & Hr & Hr_logo) Hnew]. fold key in Hr.
  exists st'. split; [done |]. split; [| done].
  intros existing Hex. apply Hext in Hex. split; [done |]. congruence.
Qed.

End IngestFacts.

Lemma prepopulated_inv : Tokens.storeInv Examples.prepopulated.
Proof.
  destruct (addTokenLogoImageSources_runs
              (ChainAddress.mkChainAddress 8453 Examples.daiOnBase) [Examples.baseLogo]
              (λ _, True) ltac:(done) Tokens.newStore (conj newStore_inv I))
    as (r & st' & E & [Hinv _] & _).
  unfold Examples.prepopulated. rewrite E. exact Hinv.
Qed.

Lemma bridging_first_sight_alias_and_logo_witness :
  ∃ st',
    Tokens.ingestToken Examples.daiToken Examples.prepopulated = (Tokens.Return tt, st')
    ∧ Tokens.tokensByAddress st' !! "8453_50c5725949A6F0c72E6C4a641F24049A917DB0Cb" = Some 0
    ∧ Tokens.mkLogoImage Examples.daiLogo ∈ Tokens.logoImagesOf st' 0.
Proof.
  destruct (bridging_first_sight_alias_and_logo Examples.daiToken Examples.daiLogo
              [(8453%N, TokenListSchema.mkBridgeInfo Examples.daiOnBase)]
              8453%N (TokenListSchema.mkBridgeInfo Examples.daiOnBase)
              Examples.prepopulated prepopulated_inv eq_refl eq_refl
              ltac:(constructor))
    as (st' & E & Hkept & _).
  exists st'. split; [exact E |].
  apply (Hkept 0). vm_compute. reflexivity.
Defined.

(** The divergence on that store: after the token is processed, the
    bridged key still has its own object, with both logos, and the token's
    own key has another object. *)
Lemma bridging_divergence_example :
  ∃ st',
    Tokens.ingestToken Examples.daiToken Examples.prepopulated = (Tokens.Return tt, st')
    ∧ Tokens.tokensByAddress st' !! "8453_50c5725949A6F0c72E6C4a641F24049A917DB0Cb" = Some 0
    ∧ Tokens.tokensByAddress st' !! "1_6B175474E89094C44Da98b954EedeAC495271d0F" = Some 1
    ∧ Tokens.logoImagesOf st' 0
      = [Tokens.mkLogoImage Examples.baseLogo; Tokens.mkLogoImage Examples.daiLogo]
    ∧ Tokens.logoImagesOf st' 1 = [Tokens.mkLogoImage Examples.daiLogo].
Proof.
  eexists. split; [vm_compute; reflexivity |]. repeat split; vm_compute; reflexivity.
Qed.

(** ** tokens.ts: [addTokenLogoImageSources] and [getTokenFromAddress] *)

Section AddFacts.

Import Tokens ChainAddress.

(** Calling [addTokenLogoImageSources] again with the same arguments
    returns the same object and leaves the store exactly as the first call
    left it. *)
Lemma addTokenLogoImageSources_idempotent
    (chainAddress : ChainAddress) (newSources : list string)
    (st st1 : TokenMetadataStore) (r : ref) :
  addTokenLogoImageSources chainAddress newSources st = (Return r, st1) →
  addTokenLogoImageSources chainAddress newSources st1 = (Return r, st1).
Proof.
  intros Hrun.
  assert (Hb : tokensByAddress st1 !! getChainAddressKey chainAddress = Some r
               ∧ (r < length (objects st1) →
                  logoImagesOf st1 r
                  = pushNewSources (logoImagesOf st1 r) newSources)).
  { destruct (tokensByAddress st !! getChainAddressKey chainAddress) as [r0 |] eqn:E.
    - rewrite (addTokenLogoImageSources_bound _ _ _ _ E) in Hrun.
      injection Hrun as <- <-. split; [exact E |]. simpl. rewrite length_insert.
      intros Hlt. rewrite logoImagesOf_insert, decide_True by done.
      by rewrite pushNewSources_idempotent.
    - rewrite (addTokenLogoImageSources_fresh _ _ _ E) in Hrun.
      injection Hrun as <- <-. split; [simpl; apply lookup_insert_eq |]. intros _.
      rewrite logoImagesOf_app, decide_True by done.
      by rewrite pushNewSources_idempotent. }
  destruct Hb as [Hb Hsame].
  rewrite (addTokenLogoImageSources_bound _ _ _ _ Hb). f_equal.
  destruct st1 as [tl tba objs]. simpl in *. f_equal.
  apply list_insert_id'. intros Hlt. specialize (Hsame Hlt).
  rewrite <- Hsame.
  destruct (lookup_lt_is_Some_2 objs r Hlt) as [[images] Eo].
  unfold logoImagesOf. cbn [objects]. rewrite Eo. reflexivity.
Qed.

(** A call whose sources are pairwise distinct keeps every logo sequence
    free of duplicates. *)
Lemma addTokenLogoImageSources_NoDup
    (chainAddress : ChainAddress) (newSources : list string)
    (st st1 : TokenMetadataStore) (r : ref) :
  NoDup newSources →
  (∀ r', NoDup (logoImagesOf st r')) →
  addTokenLogoImageSources chainAddress newSources st = (Return r, st1) →
  ∀ r', NoDup (logoImagesOf st1 r').
Proof.
  intros Hnew Hold Hrun r'.
  destruct (tokensByAddress st !! getChainAddressKey chainAddress) as [r0 |] eqn:E.
  - rewrite (addTokenLogoImageSources_bound _ _ _ _ E) in Hrun.
    injection Hrun as <- <-. rewrite logoImagesOf_insert.
    destruct (decide _); [by apply pushNewSources_NoDup | done].
  - rewrite (addTokenLogoImageSources_fresh _ _ _ E) in Hrun.
    injection Hrun as <- <-. rewrite logoImagesOf_app.
    destruct (decide _); [apply pushNewSources_NoDup; [constructor | done] | done].
Qed.

(** C2. A source passed twice in one call is appended twice: on a new
    store, [addTokenLogoImageSources] with the same string given twice
    leaves a logo sequence that holds it twice, because each source is
    compared with the sequence as it was when the call began. *)
Theorem addTokenLogoImageSources_repeated_source :
  ∃ r st',
    addTokenLogoImageSources Examples.dai
      ["/static/images/dai.png"; "/static/images/dai.png"] newStore = (Return r, st')
    ∧ getTokenFromAddress Examples.dai st' = (Return (Some r), st')
    ∧ logoImagesOf st' r
      = [mkLogoImage "/static/images/dai.png"; mkLogoImage "/static/images/dai.png"]
    ∧ ¬ NoDup (logoImagesOf st' r).
Proof.
  eexists _, _. split; [vm_compute; reflexivity |].
  split; [vm_compute; reflexivity |]. split; [vm_compute; reflexivity |].
  intros H. vm_compute in H. apply NoDup_cons in H as [H _]. apply H. constructor.
Qed.

(** C7. The operations on a string that is not an address, where the
    earlier revision of the store throws [InvalidAddressError] from
    [getAddress]: on a new store, [getTokenFromAddress] returns nothing
    instead of throwing; [addTokenLogoImageSources] returns, and has
    created an object with the source and bound it to a key derived from
    the malformed string; and [getTokenFromAddress] then finds that
    object under the malformed address. *)
Theorem malformed_address_is_keyed :
  ¬ WellFormedAddress Examples.malformed
  ∧ getTokenFromAddress (mkChainAddress 1 Examples.malformed) newStore
    = (Return None, newStore)
  ∧ ∃ st',
      addTokenLogoImageSources (mkChainAddress 1 Examples.malformed)
        ["/static/images/dai.png"] newStore = (Return 0, st')
      ∧ tokensByAddress newStore !! "1_not-an-address" = None
      ∧ tokensByAddress st' !! "1_not-an-address" = Some 0
      ∧ objects st' = [mkTokenMetadata [mkLogoImage "/static/images/dai.png"]]
      ∧ getTokenFromAddress (mkChainAddress 1 Examples.malformed) st'
        = (Return (Some 0), st').
Proof.
  split.
  - intros H. apply addressRegex_test_lowercased in H. vm_compute in H. discriminate H.
  - split; [reflexivity |].
    eexists. split; [vm_compute; reflexivity |]. repeat split; vm_compute; reflexivity.
Qed.

(** Neither operation validates or canonicalizes the address, and neither
    throws: for every chain address, whatever its address string,
    [addTokenLogoImageSources] returns the object bound afterwards to the
    key that [getChainAddressKey] derives, which is the object that was
    bound to it before if there was one, and [getTokenFromAddress] returns
    what is bound to that key, or nothing, and leaves the store as it
    is. *)
Lemma store_operations_key_without_validation
    (chainAddress : ChainAddress) (newSources : list string) (st : TokenMetadataStore) :
  (∃ r st',
     addTokenLogoImageSources chainAddress newSources st = (Return r, st')
     ∧ tokensByAddress st' !! getChainAddressKey chainAddress = Some r
     ∧ (∀ existing,
          tokensByAddress st !! getChainAddressKey chainAddress = Some existing →
          r = existing))
  ∧ getTokenFromAddress chainAddress st
    = (Return (tokensByAddress st !! getChainAddressKey chainAddress), st).
Proof.
  split; [| reflexivity].
  destruct (tokensByAddress st !! getChainAddressKey chainAddress) as [r0 |] eqn:E.
  - eexists _, _. split; [by apply addTokenLogoImageSources_bound |].
    split; [exact E |]. by intros ? [= <-].
  - eexists _, _. split; [by apply addTokenLogoImageSources_fresh |].
    split; [simpl; apply lookup_insert_eq | discriminate].
Qed.

End AddFacts.

(** ** tokens.ts: [fetchTokensFromList] *)

Section FetchFacts.

Import Tokens ChainAddress.

Variable JSON : Type.
Variable safeParse_tokenListSchema : JSON → TokenListSchema.SafeParseResult.

Lemma Map_get_set {V : Type} (k : string) (v : V) (m : list (string * V)) :
  Map_get k (Map_set k v m) = Some v.
Proof.
  unfold Map_get. induction m as [| [k' v'] m IH]; simpl.
  - by rewrite String.eqb_refl.
  - destruct (String.eqb_spec k k') as [-> | Hne]; simpl.
    + by rewrite String.eqb_refl.
    + destruct (String.eqb_spec k k'); [done | exact IH].
Qed.

Lemma Map_set_keys {V : Type} (k : string) (v : V) (m : list (string * V)) (k' : string) :
  k' ∈ map fst (Map_set k v m) ↔ k' = k ∨ k' ∈ map fst m.
Proof.
  induction m as [| [k0 v0] m IH]; simpl.
  - rewrite list_elem_of_singleton, elem_of_nil. tauto.
  - destruct (String.eqb_spec k k0) as [-> | Hne]; simpl.
    + rewrite !elem_of_cons. tauto.
    + rewrite !elem_of_cons, IH. tauto.
Qed.

Lemma Map_set_NoDup {V : Type} (k : string) (v : V) (m : list (string * V)) :
  NoDup (map fst m) → NoDup (map fst (Map_set k v m)).
Proof.
  induction m as [| [k0 v0] m IH]; simpl; intros Hnd.
  - apply NoDup_singleton.
  - apply NoDup_cons in Hnd as [Hnot Hnd].
    destruct (String.eqb_spec k k0) as [-> | Hne]; simpl.
    + by apply NoDup_cons.
    + apply NoDup_cons. split; [| by apply IH].
      rewrite Map_set_keys. intros [-> | H]; done.
Qed.

Lemma Map_set_elem {V : Type} (k : string) (v : V) (m : list (string * V))
    (k' : string) (v' : V) :
  (k', v') ∈ Map_set k v m → (k' = k ∧ v' = v) ∨ (k', v') ∈ m.
Proof.
  induction m as [| [k0 v0] m IH]; simpl.
  - intros H. apply list_elem_of_singleton in H. injection H as -> ->. by left.
  - destruct (String.eqb_spec k k0) as [-> | Hne]; intros H;
      apply elem_of_cons in H as [H | H].
    + injection H as -> ->. by left.
    + right. by constructor.
    + right. rewrite H. constructor.
    + destruct (IH H) as [? | ?]; [by left | right; by constructor].
Qed.

(** Among the values of a map whose keys are the [href]s of its values,
    the one recorded last under an [href] is the only one that carries it. *)
Lemma Map_set_only_entry (h : string) (v : TokenListMetadata)
    (m : list (string * TokenListMetadata)) :
  NoDup (map fst m) → (∀ k x, (k, x) ∈ m → href x = k) → href v = h →
  filter (λ x, href x = h) (map snd (Map_set h v m)) = [v].
Proof.
  intros Hnd Hhref Hv.
  assert (Hnone : ∀ m' : list (string * TokenListMetadata),
            h ∉ map fst m' → (∀ k x, (k, x) ∈ m' → href x = k) →
            filter (λ x, href x = h) (map snd m') = []).
  { induction m' as [| [k0 x0] m' IH]; simpl; intros Hnot Hh; [reflexivity |].
    rewrite filter_cons. destruct (decide _) as [D | D]; simpl in D.
    - destruct Hnot. rewrite <- D, (Hh k0 x0) by constructor. constructor.
    - apply IH; [| intros k x Hin; apply Hh; by constructor].
      intros Hin. apply Hnot. by constructor. }
  induction m as [| [k0 x0] m IH]; simpl.
  - rewrite filter_cons, decide_True by done. reflexivity.
  - apply NoDup_cons in Hnd as [Hnot Hnd].
    destruct (String.eqb_spec h k0) as [-> | Hne]; simpl.
    + rewrite filter_cons, decide_True by done. f_equal.
      apply Hnone; [done |]. intros k x Hin. apply Hhref. by constructor.
    + rewrite filter_cons, decide_False.
      * apply IH; [done |]. intros k x Hin. apply Hhref. by constructor.
      * simpl. rewrite (Hhref k0 x0) by constructor. congruence.
Qed.

Lemma acceptedLogo_https (token : TokenListSchema.TokenInfo) (uri : string) :
  TokenListSchema.logoURI token = Some uri → Url.isHttpsUrl uri = true →
  acceptedLogo token = Some uri.
Proof.
  intros Hl Hh. unfold acceptedLogo. rewrite Hl, Hh.
  destruct uri; [discriminate Hh | reflexivity].
Qed.

(** The loop over the tokens of a document returns, into an extension
    that keeps the invariant, with every accepted logo in place at the
    token's own key and at each of its bridge targets. *)
Lemma ingest_loop_runs (tokens : list TokenListSchema.TokenInfo) :
  runs storeInv (forOf tokens ingestToken)
    (λ _ st', ∀ token, token ∈ tokens → ∀ uri, acceptedLogo token = Some uri →
       hasLogoAt (getChainAddressKey
                    (mkChainAddress (TokenListSchema.chainId token)
                       (TokenListSchema.address token))) uri st'
       ∧ ∀ record n b, bridgeInfoOf token = Some record → (n, b) ∈ record →
           hasLogoAt (getChainAddressKey
                        (mkChainAddress n (TokenListSchema.tokenAddress b))) uri st').
Proof.
  apply (forOf_runs storeInv
    (λ token st', ∀ uri, acceptedLogo token = Some uri →
       hasLogoAt (getChainAddressKey
                    (mkChainAddress (TokenListSchema.chainId token)
                       (TokenListSchema.address token))) uri st'
       ∧ ∀ record n b, bridgeInfoOf token = Some record → (n, b) ∈ record →
           hasLogoAt (getChainAddressKey
                        (mkChainAddress n (TokenListSchema.tokenAddress b))) uri st')).
  - intros token st st' HQ Hext uri Hlogo. destruct (HQ uri Hlogo) as [Hown Hbr].
    split; [by eapply hasLogoAt_extends |].
    intros record n b Hrec Hin. eapply hasLogoAt_extends; [by eapply Hbr | done].
  - intros token _. apply ingestToken_runs.
Qed.

(** What a successful call does: the loop over the tokens, then the
    record of the list under the [href] of the URL. *)
Lemma fetchTokensFromList_success
    (fetch : Url.URL → JS.Exception + Response JSON) (tokenListUrl : Url.URL)
    (st : TokenMetadataStore) (response : Response JSON) (body : JSON)
    (output : TokenListSchema.TokenList) :
  storeInv st →
  fetch tokenListUrl = inr response → ok JSON response = true →
  json JSON response = inr body →
  safeParse_tokenListSchema body = TokenListSchema.Success output →
  ∃ st1,
    forOf (TokenListSchema.tokens output) ingestToken st = (Return tt, st1)
    ∧ storeInv st1 ∧ extends st st1
    ∧ fetchTokensFromList JSON safeParse_tokenListSchema fetch tokenListUrl st
      = (Return tt,
         mkStore
           (Map_set (Url.href tokenListUrl)
              (mkTokenListMetadata (TokenListSchema.listName output)
                 (TokenListSchema.timestamp output) (Url.href tokenListUrl)
                 (TokenListSchema.version output))
              (tokenLists st))
           (tokensByAddress st1) (objects st1)).
Proof.
  intros Hinv Hf Hok Hj Hp.
  destruct (ingest_loop_runs (TokenListSchema.tokens output) st Hinv)
    as ([] & st1 & E1 & Hinv1 & Hext1 & _).
  exists st1. split; [done |]. split; [done |]. split; [done |].
  unfold fetchTokensFromList, mbind, M_bind, settle. rewrite Hf. cbn [mret M_ret].
  rewrite Hok. cbn [negb mret M_ret]. rewrite Hj. cbn [mret M_ret]. rewrite Hp, E1.
  unfold tokenLists_set, modify. by rewrite (ext_lists _ _ Hext1).
Qed.

(** A successful call keeps the invariant of the store. *)
Lemma fetchTokensFromList_inv
    (fetch : Url.URL → JS.Exception + Response JSON) (tokenListUrl : Url.URL)
    (st st' : TokenMetadataStore) (c : Completion unit) :
  storeInv st →
  fetchTokensFromList JSON safeParse_tokenListSchema fetch tokenListUrl st = (c, st') →
  storeInv st'.
Proof.
  intros Hinv Hrun.
  destruct (fetch tokenListUrl) as [e | response] eqn:Hf.
  { unfold fetchTokensFromList, mbind, M_bind, settle in Hrun. rewrite Hf in Hrun.
    by injection Hrun as _ <-. }
  destruct (ok JSON response) eqn:Hok.
  2: { unfold fetchTokensFromList, mbind, M_bind, settle in Hrun.
       rewrite Hf in Hrun. cbn [mret M_ret] in Hrun. rewrite Hok in Hrun.
       by injection Hrun as _ <-. }
  destruct (json JSON response) as [e | body] eqn:Hj.
  { unfold fetchTokensFromList, mbind, M_bind, settle in Hrun.
    rewrite Hf in Hrun. cbn [mret M_ret] in Hrun. rewrite Hok in Hrun.
    cbn [negb mret M_ret] in Hrun. rewrite Hj in Hrun. by injection Hrun as _ <-. }
  destruct (safeParse_tokenListSchema body) as [output | issues] eqn:Hp.
  - destruct (fetchTokensFromList_success fetch tokenListUrl st response body output
                Hinv Hf Hok Hj Hp) as (st1 & _ & Hinv1 & Hext1 & E).
    rewrite E in Hrun. injection Hrun as _ <-.
    destruct Hinv as [Hrefs Hkeys Hhref]. split; simpl.
    + apply Hinv1.
    + by apply Map_set_NoDup.
    + intros k m Hin. apply Map_set_elem in Hin as [[-> ->] | Hin]; [done | eauto].
  - unfold fetchTokensFromList, mbind, M_bind, settle in Hrun.
    rewrite Hf in Hrun. cbn [mret M_ret] in Hrun. rewrite Hok in Hrun.
    cbn [negb mret M_ret] in Hrun. rewrite Hj in Hrun. cbn [mret M_ret] in Hrun.
    rewrite Hp in Hrun. by injection Hrun as _ <-.
Qed.

(** Over a whole successful call: a bridge target of a token of the
    document with an accepted logo, when it already had an entry, still
    maps to the same object once the call has returned, and that object
    has the logo. *)
Lemma fetchTokensFromList_bridged_entry_kept
    (fetch : Url.URL → JS.Exception + Response JSON) (tokenListUrl : Url.URL)
    (st : TokenMetadataStore) (response : Response JSON) (body : JSON)
    (output : TokenListSchema.TokenList) (token : TokenListSchema.TokenInfo)
    (uri : string) (record : list (N * TokenListSchema.BridgeInfo))
    (n : N) (b : TokenListSchema.BridgeInfo) (existing : nat) :
  storeInv st →
  fetch tokenListUrl = inr response → ok JSON response = true →
  json JSON response = inr body →
  safeParse_tokenListSchema body = TokenListSchema.Success output →
  token ∈ TokenListSchema.tokens output →
  acceptedLogo token = Some uri →
  bridgeInfoOf token = Some record → (n, b) ∈ record →
  tokensByAddress st
    !! getChainAddressKey (mkChainAddress n (TokenListSchema.tokenAddress b))
    = Some existing →
  ∃ st',
    fetchTokensFromList JSON safeParse_tokenListSchema fetch tokenListUrl st
      = (Return tt, st')
    ∧ tokensByAddress st'
        !! getChainAddressKey (mkChainAddress n (TokenListSchema.tokenAddress b))
      = Some existing
    ∧ mkLogoImage uri ∈ logoImagesOf st' existing.
Proof.
  intros Hinv Hf Hok Hj Hp Htok Hlogo Hrec Hin Hex.
  destruct (ingest_loop_runs (TokenListSchema.tokens output) st Hinv)
    as ([] & st1 & E1 & Hinv1 & Hext1 & Hlogos).
  destruct (fetchTokensFromList_success fetch tokenListUrl st response body output
              Hinv Hf Hok Hj Hp) as (st1' & E1' & _ & _ & E).
  rewrite E1 in E1'. injection E1' as <-.
  destruct (Hlogos token Htok uri Hlogo) as [_ Hbridge].
  destruct (Hbridge record n b Hrec Hin) as (r & Hr & Hr_logo).
  pose proof (ext_bindings _ _ Hext1 _ _ Hex) as Hkept.
  eexists. split; [exact E |]. simpl. split; [exact Hkept |].
  assert (r = existing) as -> by congruence. exact Hr_logo.
Qed.

(** C5. On a store that satisfies the invariant: when the body fails
    validation, [fetchTokensFromList] throws the parse error and the store
    is exactly as before, so an [href] that had no list metadata has none
    afterwards and no token entry has been created; and, for every outcome
    of a call, either it throws and the store is as before, or it returns,
    the loop over all the tokens of the document has run to its end, and
    the list metadata is set under the [href] on the store the loop left. *)
Theorem fetchTokensFromList_validation_failure_atomic
    (fetch : Url.URL → JS.Exception + Response JSON) (tokenListUrl : Url.URL)
    (st : TokenMetadataStore) :
  storeInv st →
  (∀ response body issues,
     fetch tokenListUrl = inr response → ok JSON response = true →
     json JSON response = inr body →
     safeParse_tokenListSchema body = TokenListSchema.Failure issues →
     ∃ st',
       fetchTokensFromList JSON safeParse_tokenListSchema fetch tokenListUrl st
       = (Throw (JS.Error "Unable to parse token list."), st')
       ∧ st' = st
       ∧ (getTokenListMetadata tokenListUrl st = (Return None, st) →
          getTokenListMetadata tokenListUrl st' = (Return None, st'))
       ∧ (∀ chainAddress found,
            getTokenFromAddress chainAddress st' = (Return (Some found), st') →
            getTokenFromAddress chainAddress st = (Return (Some found), st)))
  ∧ (∀ c st',
       fetchTokensFromList JSON safeParse_tokenListSchema fetch tokenListUrl st = (c, st') →
       match c with
       | Throw _ => st' = st
       | Return _ =>
           ∃ response body output st1,
             fetch tokenListUrl = inr response
             ∧ json JSON response = inr body
             ∧ safeParse_tokenListSchema body = TokenListSchema.Success output
             ∧ forOf (TokenListSchema.tokens output) ingestToken st = (Return tt, st1)
             ∧ tokenLists st1 = tokenLists st
             ∧ st' = mkStore
                 (Map_set (Url.href tokenListUrl)
                    (mkTokenListMetadata (TokenListSchema.listName output)
                       (TokenListSchema.timestamp output) (Url.href tokenListUrl)
                       (TokenListSchema.version output))
                    (tokenLists st1))
                 (tokensByAddress st1) (objects st1)
       end).
Proof.
  intros Hinv. split.
  - intros response body issues Hf Hok Hj Hp. exists st.
    split; [| split; [reflexivity | split; [done | done]]].
    unfold fetchTokensFromList, mbind, M_bind, settle. rewrite Hf. cbn [mret M_ret].
    rewrite Hok. cbn [negb mret M_ret]. rewrite Hj. cbn [mret M_ret]. by rewrite Hp.
  - intros c st' Hrun.
    destruct (fetch tokenListUrl) as [e | response] eqn:Hf.
    { unfold fetchTokensFromList, mbind, M_bind, settle in Hrun. rewrite Hf in Hrun.
      by injection Hrun as <- <-. }
    destruct (ok JSON response) eqn:Hok.
    2: { unfold fetchTokensFromList, mbind, M_bind, settle in Hrun.
         rewrite Hf in Hrun. cbn [mret M_ret] in Hrun. rewrite Hok in Hrun.
         by injection Hrun as <- <-. }
    destruct (json JSON response) as [e | body] eqn:Hj.
    { unfold fetchTokensFromList, mbind, M_bind, settle in Hrun.
      rewrite Hf in Hrun. cbn [mret M_ret] in Hrun. rewrite Hok in Hrun.
      cbn [negb mret M_ret] in Hrun. rewrite Hj in Hrun. by injection Hrun as <- <-. }
    destruct (safeParse_tokenListSchema body) as [output | issues] eqn:Hp.
    + destruct (fetchTokensFromList_success fetch tokenListUrl st response body output
                  Hinv Hf Hok Hj Hp) as (st1 & E1 & Hinv1 & Hext1 & E).
      rewrite E in Hrun. injection Hrun as <- <-.
      exists response, body, output, st1.
      repeat (split; [done |]). split; [apply Hext1 |].
      by rewrite (ext_lists _ _ Hext1).
    + unfold fetchTokensFromList, mbind, M_bind, settle in Hrun.
      rewrite Hf in Hrun. cbn [mret M_ret] in Hrun. rewrite Hok in Hrun.
      cbn [negb mret M_ret] in Hrun. rewrite Hj in Hrun. cbn [mret M_ret] in Hrun.
      rewrite Hp in Hrun. by injection Hrun as <- <-.
Qed.

(** C4. End to end, on a store that satisfies the invariant: when the
    response is successful and its body validates to a document whose one
    token is on chain 1, has a logo that starts with [https://] and has
    the key ["8453"] of its [bridgeInfo] mapped to a bridged address, the
    call returns; [getTokenFromAddress] finds an entry for the token on
    chain 1 and an entry for the bridged address on chain 8453, each with
    the logo among its [logoImages]; and among [tokenLists] exactly one
    entry carries the [href] of the URL, with the name, timestamp and
    version of the document. *)
Theorem fetchTokensFromList_end_to_end
    (fetch : Url.URL → JS.Exception + Response JSON) (tokenListUrl : Url.URL)
    (st : TokenMetadataStore) (response : Response JSON) (body : JSON)
    (output : TokenListSchema.TokenList) (token : TokenListSchema.TokenInfo)
    (uri : string) (record : list (N * TokenListSchema.BridgeInfo))
    (bridged : Address) :
  storeInv st →
  fetch tokenListUrl = inr response → ok JSON response = true →
  json JSON response = inr body →
  safeParse_tokenListSchema body = TokenListSchema.Success output →
  TokenListSchema.tokens output = [token] →
  TokenListSchema.chainId token = 1%N →
  TokenListSchema.logoURI token = Some uri → Url.isHttpsUrl uri = true →
  bridgeInfoOf token = Some record →
  ("8453", TokenListSchema.mkBridgeInfo bridged) ∈ TokenListSchema.Object_entries record →
  ∃ st' own other lists,
    fetchTokensFromList JSON safeParse_tokenListSchema fetch tokenListUrl st
      = (Return tt, st')
    ∧ getTokenFromAddress (mkChainAddress 1 (TokenListSchema.address token)) st'
      = (Return (Some own), st')
    ∧ mkLogoImage uri ∈ logoImagesOf st' own
    ∧ getTokenFromAddress (mkChainAddress 8453 bridged) st' = (Return (Some other), st')
    ∧ mkLogoImage uri ∈ logoImagesOf st' other
    ∧ get_tokenLists st' = (Return lists, st')
    ∧ filter (λ m, href m = Url.href tokenListUrl) lists
      = [mkTokenListMetadata (TokenListSchema.listName output)
           (TokenListSchema.timestamp output) (Url.href tokenListUrl)
           (TokenListSchema.version output)].
Proof.
  intros Hinv Hf Hok Hj Hp Htokens Hchain Hlogo Hhttps Hrec Hin.
  destruct (ingest_loop_runs (TokenListSchema.tokens output) st Hinv)
    as ([] & st1 & E1 & Hinv1 & Hext1 & Hlogos).
  destruct (fetchTokensFromList_success fetch tokenListUrl st response body output
              Hinv Hf Hok Hj Hp) as (st1' & E1' & _ & _ & E).
  rewrite E1 in E1'. injection E1' as <-.
  assert (Htok : token ∈ TokenListSchema.tokens output) by (rewrite Htokens; constructor).
  destruct (Hlogos token Htok uri (acceptedLogo_https _ _ Hlogo Hhttps))
    as [(own & Hown & Hown_logo) Hbridge].
  apply list_elem_of_fmap in Hin as ([n b] & Heq & Hin). simpl in Heq.
  injection Heq as Hn <-.
  assert (n = 8453%N) as -> by (apply numberToString_inj; by rewrite <- Hn).
  destruct (Hbridge record _ _ Hrec Hin) as (other & Hother & Hother_logo).
  rewrite Hchain in Hown. simpl in Hother.
  eexists _, own, other, _. split; [exact E |].
  split; [unfold getTokenFromAddress, tokensByAddress_get, gets; simpl; by rewrite Hown |].
  split; [exact Hown_logo |].
  split; [unfold getTokenFromAddress, tokensByAddress_get, gets; simpl; by rewrite Hother |].
  split; [exact Hother_logo |].
  split; [reflexivity |]. simpl.
  apply Map_set_only_entry; [apply Hinv | apply Hinv | reflexivity].
Qed.

End FetchFacts.

Lemma fetchTokensFromList_validation_failure_atomic_witness :
  Tokens.fetchTokensFromList TokenListSchema.SafeParseResult (λ body, body)
    (Examples.serve (TokenListSchema.Failure ["tokens: Invalid length"]))
    Examples.sampleUrl Tokens.newStore
  = (Tokens.Throw (JS.Error "Unable to parse token list."), Tokens.newStore).
Proof.
  destruct (proj1 (fetchTokensFromList_validation_failure_atomic
                     TokenListSchema.SafeParseResult (λ body, body)
                     (Examples.serve (TokenListSchema.Failure ["tokens: Invalid length"]))
                     Examples.sampleUrl Tokens.newStore newStore_inv)
              _ _ ["tokens: Invalid length"] eq_refl eq_refl eq_refl eq_refl)
    as (st' & E & -> & _).
  exact E.
Defined.

Lemma fetchTokensFromList_end_to_end_witness :
  ∃ st' own other lists,
    Tokens.fetchTokensFromList TokenListSchema.SafeParseResult (λ body, body)
      (Examples.serve (TokenListSchema.Success Examples.sampleList))
      Examples.sampleUrl Tokens.newStore = (Tokens.Return tt, st')
    ∧ Tokens.getTokenFromAddress (ChainAddress.mkChainAddress 1 Examples.daiAddress) st'
      = (Tokens.Return (Some own), st')
    ∧ Tokens.mkLogoImage Examples.daiLogo ∈ Tokens.logoImagesOf st' own
    ∧ Tokens.getTokenFromAddress (ChainAddress.mkChainAddress 8453 Examples.daiOnBase) st'
      = (Tokens.Return (Some other), st')
    ∧ Tokens.mkLogoImage Examples.daiLogo ∈ Tokens.logoImagesOf st' other
    ∧ Tokens.get_tokenLists st' = (Tokens.Return lists, st')
    ∧ filter (λ m, Tokens.href m = Url.href Examples.sampleUrl) lists
      = [Tokens.mkTokenListMetadata "Sample List" "2024-12-12T18:01:30.180Z"
           "https://lists.example/tokens.json" (TokenListSchema.mkVersion 1 2 3)].
Proof.
  apply (fetchTokensFromList_end_to_end TokenListSchema.SafeParseResult (λ body, body)
           (Examples.serve (TokenListSchema.Success Examples.sampleList))
           Examples.sampleUrl Tokens.newStore _ _ Examples.sampleList Examples.daiToken
           Examples.daiLogo [(8453%N, TokenListSchema.mkBridgeInfo Examples.daiOnBase)]
           Examples.daiOnBase newStore_inv eq_refl eq_refl eq_refl eq_refl eq_refl
           eq_refl eq_refl eq_refl eq_refl).
  vm_compute. constructor.
Defined.

(** On a new store the sample document leaves one object, shared by the
    two keys, with the logo as its only source, and one list. *)
Lemma fetchTokensFromList_sample :
  ∃ st',
    Tokens.fetchTokensFromList TokenListSchema.SafeParseResult (λ body, body)
      (Examples.serve (TokenListSchema.Success Examples.sampleList))
      Examples.sampleUrl Tokens.newStore = (Tokens.Return tt, st')
    ∧ Tokens.tokensByAddress st' !! "1_6B175474E89094C44Da98b954EedeAC495271d0F" = Some 0
    ∧ Tokens.tokensByAddress st' !! "8453_50c5725949A6F0c72E6C4a641F24049A917DB0Cb" = Some 0
    ∧ Tokens.objects st' = [Tokens.mkTokenMetadata [Tokens.mkLogoImage Examples.daiLogo]]
    ∧ map snd (Tokens.tokenLists st')
      = [Tokens.mkTokenListMetadata "Sample List" "2024-12-12T18:01:30.180Z"
           "https://lists.example/tokens.json" (TokenListSchema.mkVersion 1 2 3)].
Proof.
  eexists. split; [vm_compute; reflexivity |]. repeat split; vm_compute; reflexivity.
Qed.

Lemma store_operations_key_without_validation_witness :
  (∃ r st',
     Tokens.addTokenLogoImageSources (ChainAddress.mkChainAddress 1 Examples.malformed)
       ["/static/images/dai.png"] Tokens.newStore = (Tokens.Return r, st')
     ∧ Tokens.tokensByAddress st' !! "1_not-an-address" = Some r
     ∧ (∀ existing,
          Tokens.tokensByAddress Tokens.newStore !! "1_not-an-address" = Some existing →
          r = existing))
  ∧ Tokens.getTokenFromAddress (ChainAddress.mkChainAddress 1 Examples.malformed)
      Tokens.newStore
    = (Tokens.Return None, Tokens.newStore).
Proof.
  exact (store_operations_key_without_validation
           (ChainAddress.mkChainAddress 1 Examples.malformed)
           ["/static/images/dai.png"] Tokens.newStore).
Defined.

(** ** tokens.ts: further properties of [addTokenLogoImageSources] *)

Section AddMoreFacts.

Import Tokens ChainAddress.

(** After a call the entry holds what it held before, or nothing when it
    is new, followed by the sources that were not there, in the order
    passed. *)
Theorem addTokenLogoImageSources_appends
    (chainAddress : ChainAddress) (newSources : list string)
    (st st' : TokenMetadataStore) (r : nat) :
  storeInv st →
  addTokenLogoImageSources chainAddress newSources st = (Return r, st') →
  ∃ before,
    before = match tokensByAddress st !! getChainAddressKey chainAddress with
             | Some r0 => logoImagesOf st r0
             | None => []
             end
    ∧ logoImagesOf st' r
      = before ++ map mkLogoImage (filter (λ s, mkLogoImage s ∉ before) newSources).
Proof.
  intros Hinv Hrun. eexists. split; [reflexivity |].
  assert (Hf : ∀ current : list LogoImage,
    filter (λ s, isNewSource current s = true) newSources
    = filter (λ s, mkLogoImage s ∉ current) newSources).
  { intros current. apply list_filter_iff. intros s. apply isNewSource_spec. }
  destruct (tokensByAddress st !! getChainAddressKey chainAddress) as [r0 |] eqn:E.
  - rewrite (addTokenLogoImageSources_bound _ _ _ _ E) in Hrun.
    injection Hrun as <- <-.
    rewrite logoImagesOf_insert, decide_True
      by (split; [done | by eapply inv_refs]).
    by rewrite pushNewSources_eq, Hf.
  - rewrite (addTokenLogoImageSources_fresh _ _ _ E) in Hrun.
    injection Hrun as <- <-.
    rewrite logoImagesOf_app, decide_True by done.
    by rewrite pushNewSources_eq, Hf.
Qed.

(** A call touches one entry only: the token lists, the bindings of all
    other keys and the logo sequences of all other objects are as before. *)
Theorem addTokenLogoImageSources_touches_one_entry
    (chainAddress : ChainAddress) (newSources : list string)
    (st st' : TokenMetadataStore) (r : nat) :
  addTokenLogoImageSources chainAddress newSources st = (Return r, st') →
  tokenLists st' = tokenLists st
  ∧ (∀ k, k ≠ getChainAddressKey chainAddress →
          tokensByAddress st' !! k = tokensByAddress st !! k)
  ∧ (∀ r', r' ≠ r → logoImagesOf st' r' = logoImagesOf st r').
Proof.
  intros Hrun. split; [| split].
  - destruct (tokensByAddress st !! getChainAddressKey chainAddress) as [r0 |] eqn:E.
    + rewrite (addTokenLogoImageSources_bound _ _ _ _ E) in Hrun.
      by injection Hrun as _ <-.
    + rewrite (addTokenLogoImageSources_fresh _ _ _ E) in Hrun.
      by injection Hrun as _ <-.
  - by eapply addTokenLogoImageSources_frame.
  - intros r' Hne.
    destruct (tokensByAddress st !! getChainAddressKey chainAddress) as [r0 |] eqn:E.
    + rewrite (addTokenLogoImageSources_bound _ _ _ _ E) in Hrun.
      injection Hrun as <- <-. rewrite logoImagesOf_insert.
      destruct (decide _) as [[-> _] | _]; done.
    + rewrite (addTokenLogoImageSources_fresh _ _ _ E) in Hrun.
      injection Hrun as <- <-. rewrite logoImagesOf_app.
      destruct (decide _) as [-> | _]; done.
Qed.

Lemma shared_object_run
    (one other : ChainAddress) (newSources : list string)
    (st : TokenMetadataStore) (shared : nat) :
  storeInv st →
  tokensByAddress st !! getChainAddressKey one = Some shared →
  tokensByAddress st !! getChainAddressKey other = Some shared →
  ∃ st',
    addTokenLogoImageSources one newSources st = (Return shared, st')
    ∧ getTokenFromAddress other st' = (Return (Some shared), st')
    ∧ ∀ s, s ∈ newSources → mkLogoImage s ∈ logoImagesOf st' shared.
Proof.
  intros Hinv Hone Hother.
  eexists. split; [by apply addTokenLogoImageSources_bound |].
  split.
  - unfold getTokenFromAddress, tokensByAddress_get, gets. simpl. by rewrite Hother.
  - intros s Hs. rewrite logoImagesOf_insert, decide_True
      by (split; [done | by eapply inv_refs]).
    by apply pushNewSources_has.
Qed.

(** Two keys bound to one object share it: sources added through one
    chain address are found through the other. *)
Theorem addTokenLogoImageSources_visible_through_alias
    (one other : ChainAddress) (newSources : list string)
    (st : TokenMetadataStore) (shared : nat) :
  storeInv st →
  tokensByAddress st !! getChainAddressKey one = Some shared →
  tokensByAddress st !! getChainAddressKey other = Some shared →
  ∃ st',
    addTokenLogoImageSources one newSources st = (Return shared, st')
    ∧ getTokenFromAddress other st' = (Return (Some shared), st')
    ∧ ∀ s, s ∈ newSources → mkLogoImage s ∈ logoImagesOf st' shared.
Proof. apply shared_object_run. Qed.

End AddMoreFacts.

Section AddMoreWitnesses.

Import Tokens.

Lemma addTokenLogoImageSources_appends_witness :
  ∃ before,
    before = [Tokens.mkLogoImage Examples.baseLogo]
    ∧ Tokens.logoImagesOf
        (Tokens.addTokenLogoImageSources
           (ChainAddress.mkChainAddress 8453 Examples.daiOnBase)
           [Examples.daiLogo; Examples.baseLogo; "/static/images/dai.png"]
           Examples.prepopulated).2 0
      = before ++ map Tokens.mkLogoImage
                    (filter (λ s, Tokens.mkLogoImage s ∉ before)
                       [Examples.daiLogo; Examples.baseLogo; "/static/images/dai.png"]).
Proof.
  exact (addTokenLogoImageSources_appends
           (ChainAddress.mkChainAddress 8453 Examples.daiOnBase)
           [Examples.daiLogo; Examples.baseLogo; "/static/images/dai.png"]
           Examples.prepopulated _ 0 prepopulated_inv eq_refl).
Defined.

Lemma addTokenLogoImageSources_touches_one_entry_witness :
  Tokens.tokenLists
    (Tokens.addTokenLogoImageSources Examples.dai [Examples.daiLogo]
       Examples.prepopulated).2 = []
  ∧ (∀ k, k ≠ ChainAddress.getChainAddressKey Examples.dai →
        Tokens.tokensByAddress
          (Tokens.addTokenLogoImageSources Examples.dai [Examples.daiLogo]
             Examples.prepopulated).2 !! k
        = Tokens.tokensByAddress Examples.prepopulated !! k)
  ∧ (∀ r', r' ≠ 1 →
        Tokens.logoImagesOf
          (Tokens.addTokenLogoImageSources Examples.dai [Examples.daiLogo]
             Examples.prepopulated).2 r'
        = Tokens.logoImagesOf Examples.prepopulated r').
Proof.
  exact (addTokenLogoImageSources_touches_one_entry Examples.dai [Examples.daiLogo]
           Examples.prepopulated _ 1 eq_refl).
Defined.

Lemma bridgedStore_inv : storeInv Examples.bridgedStore.
Proof.
  destruct (ingestToken_runs Examples.daiToken newStore newStore_inv)
    as ([] & st' & E & Hinv & _).
  unfold Examples.bridgedStore. rewrite E. exact Hinv.
Qed.

Lemma addTokenLogoImageSources_visible_through_alias_witness :
  ∃ st',
    addTokenLogoImageSources Examples.dai ["/static/images/dai.png"] Examples.bridgedStore
      = (Return 0, st')
    ∧ getTokenFromAddress (ChainAddress.mkChainAddress 8453 Examples.daiOnBase) st'
      = (Return (Some 0), st')
    ∧ ∀ s, s ∈ ["/static/images/dai.png"] → mkLogoImage s ∈ logoImagesOf st' 0.
Proof.
  apply (addTokenLogoImageSources_visible_through_alias Examples.dai
           (ChainAddress.mkChainAddress 8453 Examples.daiOnBase)
           ["/static/images/dai.png"] Examples.bridgedStore 0 bridgedStore_inv);
    vm_compute; reflexivity.
Defined.

End AddMoreWitnesses.

(** ** tokens.ts: bridging and later calls *)

Section BridgingMoreFacts.

Import Tokens ChainAddress.

(** The note of the module documentation: once a token list has bridged a
    token to an address that had no entry, sources added later for the
    token are found at the bridged address too, and sources added for the
    bridged address are found at the token. *)
Theorem bridged_addresses_share_later_sources
    (token : TokenListSchema.TokenInfo) (uri : string)
    (record : list (N * TokenListSchema.BridgeInfo))
    (n : N) (b : TokenListSchema.BridgeInfo)
    (newSources : list string) (st : TokenMetadataStore) :
  let own := mkChainAddress (TokenListSchema.chainId token) (TokenListSchema.address token) in
  let bridged := mkChainAddress n (TokenListSchema.tokenAddress b) in
  storeInv st →
  acceptedLogo token = Some uri →
  bridgeInfoOf token = Some record →
  (n, b) ∈ record →
  tokensByAddress st !! getChainAddressKey bridged = None →
  ∃ st1 shared,
    ingestToken token st = (Return tt, st1)
    ∧ (∃ st2,
         addTokenLogoImageSources own newSources st1 = (Return shared, st2)
         ∧ getTokenFromAddress bridged st2 = (Return (Some shared), st2)
         ∧ ∀ s, s ∈ newSources → mkLogoImage s ∈ logoImagesOf st2 shared)
    ∧ (∃ st2,
         addTokenLogoImageSources bridged newSources st1 = (Return shared, st2)
         ∧ getTokenFromAddress own st2 = (Return (Some shared), st2)
         ∧ ∀ s, s ∈ newSources → mkLogoImage s ∈ logoImagesOf st2 shared).
Proof.
  intros own bridged Hinv Hlogo Hrec Hin Hnone.
  destruct (ingestToken_step token uri st Hinv Hlogo)
    as (st1 & E & Hinv1 & _ & _ & Hbridge).
  destruct (Hbridge record n b Hrec Hin) as [_ Hnew].
  destruct (Hnew Hnone) as (shared & Hown & Hbr & _).
  exists st1, shared. split; [exact E |]. split.
  - by apply shared_object_run.
  - by apply shared_object_run.
Qed.

Lemma bridged_addresses_share_later_sources_witness :
  ∃ st1 shared,
    ingestToken Examples.daiToken newStore = (Return tt, st1)
    ∧ (∃ st2,
         addTokenLogoImageSources Examples.dai ["/static/images/dai.png"] st1
           = (Return shared, st2)
         ∧ getTokenFromAddress (mkChainAddress 8453 Examples.daiOnBase) st2
           = (Return (Some shared), st2)
         ∧ ∀ s, s ∈ ["/static/images/dai.png"] → mkLogoImage s ∈ logoImagesOf st2 shared)
    ∧ (∃ st2,
         addTokenLogoImageSources (mkChainAddress 8453 Examples.daiOnBase)
           ["/static/images/dai.png"] st1 = (Return shared, st2)
         ∧ getTokenFromAddress Examples.dai st2 = (Return (Some shared), st2)
         ∧ ∀ s, s ∈ ["/static/images/dai.png"] → mkLogoImage s ∈ logoImagesOf st2 shared).
Proof.
  apply (bridged_addresses_share_later_sources Examples.daiToken Examples.daiLogo
           [(8453%N, TokenListSchema.mkBridgeInfo Examples.daiOnBase)]
           8453%N (TokenListSchema.mkBridgeInfo Examples.daiOnBase)
           ["/static/images/dai.png"] newStore newStore_inv eq_refl eq_refl
           ltac:(constructor) eq_refl).
Defined.

End BridgingMoreFacts.

(** ** tokens.ts: further properties of [fetchTokensFromList] *)

Section FetchMoreFacts.

Import Tokens ChainAddress.

Variable JSON : Type.
Variable safeParse_tokenListSchema : JSON → TokenListSchema.SafeParseResult.

Lemma Map_get_set_ne {V : Type} (k k' : string) (v : V) (m : list (string * V)) :
  k' ≠ k → Map_get k' (Map_set k v m) = Map_get k' m.
Proof.
  intros Hne. unfold Map_get. induction m as [| [k0 v0] m IH]; simpl.
  - destruct (String.eqb_spec k' k); done.
  - destruct (String.eqb_spec k k0) as [-> | Hk]; simpl.
    + destruct (String.eqb_spec k' k0); done.
    + destruct (String.eqb_spec k' k0); [done | exact IH].
Qed.

Lemma Map_set_set {V : Type} (k : string) (v : V) (m : list (string * V)) :
  Map_set k v (Map_set k v m) = Map_set k v m.
Proof.
  induction m as [| [k0 v0] m IH]; simpl.
  - by rewrite String.eqb_refl.
  - destruct (String.eqb_spec k k0) as [-> | Hk]; simpl.
    + by rewrite String.eqb_refl.
    + destruct (String.eqb_spec k k0); [done | by rewrite IH].
Qed.

(** [set] keeps the place of a key that is present and puts a new key
    last. *)
Lemma Map_set_order {V : Type} (k : string) (v : V) (m : list (string * V)) :
  map fst (Map_set k v m)
  = if decide (k ∈ map fst m) then map fst m else map fst m ++ [k].
Proof.
  induction m as [| [k0 v0] m IH]; cbn [Map_set map fst].
  - destruct (decide (k ∈ [])) as [Hin | _]; [by apply elem_of_nil in Hin | reflexivity].
  - destruct (String.eqb_spec k k0) as [-> | Hk]; cbn [map fst].
    + destruct (decide (k0 ∈ k0 :: map fst m)) as [_ | Hnot]; [reflexivity |].
      destruct Hnot. constructor.
    + rewrite IH. destruct (decide (k ∈ map fst m)) as [Hin | Hnot];
        destruct (decide (k ∈ k0 :: map fst m)) as [Hin' | Hnot']; try reflexivity.
      * destruct Hnot'. by constructor.
      * apply elem_of_cons in Hin' as [-> | Hin']; done.
Qed.

Lemma storeInv_values (st : TokenMetadataStore) :
  storeInv st → map href (map snd (tokenLists st)) = map fst (tokenLists st).
Proof.
  intros [_ _ Hhref]. induction (tokenLists st) as [| [k m] l IH]; [reflexivity |].
  simpl. rewrite (Hhref k m) by constructor. f_equal. apply IH.
  intros k' m' Hin. apply Hhref. by constructor.
Qed.

(** Recording a list under its [href] keeps the invariant. *)
Lemma record_list_inv (st : TokenMetadataStore) (meta : TokenListMetadata)
    (tl : list (string * TokenListMetadata)) :
  storeInv st → NoDup (map fst tl) → (∀ k m, (k, m) ∈ tl → href m = k) →
  storeInv (mkStore (Map_set (href meta) meta tl) (tokensByAddress st) (objects st)).
Proof.
  intros [Hrefs _ _] Hkeys Hhref. split; simpl.
  - exact Hrefs.
  - by apply Map_set_NoDup.
  - intros k m Hin. apply Map_set_elem in Hin as [[-> ->] | Hin]; [done | eauto].
Qed.

(** The two ways a call can end: it throws and the store is as it was, or
    it returns after the loop over the tokens and the record of the list. *)
Lemma fetchTokensFromList_cases
    (fetch : Url.URL → JS.Exception + Response JSON) (tokenListUrl : Url.URL)
    (st st' : TokenMetadataStore) (c : Completion unit) :
  storeInv st →
  fetchTokensFromList JSON safeParse_tokenListSchema fetch tokenListUrl st = (c, st') →
  ((∃ e, c = Throw e) ∧ st' = st)
  ∨ (∃ response body output st1,
       c = Return tt
       ∧ fetch tokenListUrl = inr response ∧ ok JSON response = true
       ∧ json JSON response = inr body
       ∧ safeParse_tokenListSchema body = TokenListSchema.Success output
       ∧ forOf (TokenListSchema.tokens output) ingestToken st = (Return tt, st1)
       ∧ storeInv st1 ∧ extends st st1
       ∧ (∀ token, token ∈ TokenListSchema.tokens output →
          ∀ uri, acceptedLogo token = Some uri →
            hasLogoAt (getChainAddressKey
                         (mkChainAddress (TokenListSchema.chainId token)
                            (TokenListSchema.address token))) uri st1
            ∧ ∀ record n b, bridgeInfoOf token = Some record → (n, b) ∈ record →
                hasLogoAt (getChainAddressKey
                             (mkChainAddress n (TokenListSchema.tokenAddress b))) uri st1)
       ∧ st' = mkStore
           (Map_set (Url.href tokenListUrl)
              (mkTokenListMetadata (TokenListSchema.listName output)
                 (TokenListSchema.timestamp output) (Url.href tokenListUrl)
                 (TokenListSchema.version output))
              (tokenLists st))
           (tokensByAddress st1) (objects st1)).
Proof.
  intros Hinv Hrun.
  destruct (fetch tokenListUrl) as [e | response] eqn:Hf.
  { left. unfold fetchTokensFromList, mbind, M_bind, settle in Hrun. rewrite Hf in Hrun.
    injection Hrun as <- <-. eauto. }
  destruct (ok JSON response) eqn:Hok.
  2: { left. unfold fetchTokensFromList, mbind, M_bind, settle in Hrun.
       rewrite Hf in Hrun. cbn [mret M_ret] in Hrun. rewrite Hok in Hrun.
       injection Hrun as <- <-. eauto. }
  destruct (json JSON response) as [e | body] eqn:Hj.
  { left. unfold fetchTokensFromList, mbind, M_bind, settle in Hrun.
    rewrite Hf in Hrun. cbn [mret M_ret] in Hrun. rewrite Hok in Hrun.
    cbn [negb mret M_ret] in Hrun. rewrite Hj in Hrun. injection Hrun as <- <-. eauto. }
  destruct (safeParse_tokenListSchema body) as [output | issues] eqn:Hp.
  - right.
    destruct (ingest_loop_runs (TokenListSchema.tokens output) st Hinv)
      as ([] & st1 & E1 & Hinv1 & Hext1 & Hlogos).
    destruct (fetchTokensFromList_success JSON safeParse_tokenListSchema
                fetch tokenListUrl st response body output Hinv Hf Hok Hj Hp)
      as (st1' & E1' & _ & _ & E).
    rewrite E1 in E1'. injection E1' as <-.
    rewrite E in Hrun. injection Hrun as <- <-.
    exists response, body, output, st1. repeat (split; [done |]). reflexivity.
  - left. unfold fetchTokensFromList, mbind, M_bind, settle in Hrun.
    rewrite Hf in Hrun. cbn [mret M_ret] in Hrun. rewrite Hok in Hrun.
    cbn [negb mret M_ret] in Hrun. rewrite Hj in Hrun. cbn [mret M_ret] in Hrun.
    rewrite Hp in Hrun. injection Hrun as <- <-. eauto.
Qed.

(** Failures of retrieval: a fetch that rejects, a response that is not
    [ok] and a body that cannot be read each end the call before anything
    is validated or stored; the exception of the fetch or of [json()] is
    passed on as it is, and a response that is not [ok] gives an error that
    carries its status text, whatever its body. *)
Theorem fetchTokensFromList_retrieval_failure
    (fetch : Url.URL → JS.Exception + Response JSON) (tokenListUrl : Url.URL)
    (st : TokenMetadataStore) :
  (∀ e, fetch tokenListUrl = inl e →
     fetchTokensFromList JSON safeParse_tokenListSchema fetch tokenListUrl st
     = (Throw e, st))
  ∧ (∀ response, fetch tokenListUrl = inr response → ok JSON response = false →
     fetchTokensFromList JSON safeParse_tokenListSchema fetch tokenListUrl st
     = (Throw (JS.Error ("Failed to fetch token list: " +:+ statusText JSON response)), st))
  ∧ (∀ response e, fetch tokenListUrl = inr response → ok JSON response = true →
     json JSON response = inl e →
     fetchTokensFromList JSON safeParse_tokenListSchema fetch tokenListUrl st
     = (Throw e, st)).
Proof.
  unfold fetchTokensFromList, mbind, M_bind, settle. repeat split.
  - intros e ->. reflexivity.
  - intros response -> Hok. cbn [mret M_ret]. by rewrite Hok.
  - intros response e -> Hok Hj. cbn [mret M_ret]. rewrite Hok. cbn [negb mret M_ret].
    by rewrite Hj.
Qed.

(** A call never takes anything away: whether it returns or throws, every
    key keeps the object it was bound to, every object keeps its logo
    sources as the beginning of its sequence, and the metadata of every
    other [href] is what it was. *)
Theorem fetchTokensFromList_only_grows
    (fetch : Url.URL → JS.Exception + Response JSON) (tokenListUrl : Url.URL)
    (st st' : TokenMetadataStore) (c : Completion unit) :
  storeInv st →
  fetchTokensFromList JSON safeParse_tokenListSchema fetch tokenListUrl st = (c, st') →
  (∀ k r, tokensByAddress st !! k = Some r → tokensByAddress st' !! k = Some r)
  ∧ (∀ r, logoImagesOf st r `prefix_of` logoImagesOf st' r)
  ∧ (∀ other, Url.href other ≠ Url.href tokenListUrl →
       getTokenListMetadata other st' = (Return (Map_get (Url.href other) (tokenLists st)), st')).
Proof.
  intros Hinv Hrun.
  destruct (fetchTokensFromList_cases fetch tokenListUrl st st' c Hinv Hrun)
    as [[_ ->] | (response & body & output & st1 & -> & _ & _ & _ & _ & _ & _ & Hext & _ & ->)].
  - repeat split; done.
  - split; [apply Hext |]. split; [apply Hext |].
    intros other Hne. unfold getTokenListMetadata, gets. simpl.
    by rewrite Map_get_set_ne.
Qed.

(** Every call, however it ends, keeps the invariant of the store: bound
    references denote objects, and the recorded lists have distinct keys,
    each the [href] of its value. *)
Theorem fetchTokensFromList_keeps_invariant
    (fetch : Url.URL → JS.Exception + Response JSON) (tokenListUrl : Url.URL)
    (st st' : TokenMetadataStore) (c : Completion unit) :
  storeInv st →
  fetchTokensFromList JSON safeParse_tokenListSchema fetch tokenListUrl st = (c, st') →
  storeInv st'.
Proof.
  intros Hinv Hrun.
  destruct (fetchTokensFromList_cases fetch tokenListUrl st st' c Hinv Hrun)
    as [[_ ->] | (response & body & output & st1 & -> & _ & _ & _ & _ & _ & Hinv1 & _ & _ & ->)].
  - exact Hinv.
  - apply (record_list_inv st1
             (mkTokenListMetadata (TokenListSchema.listName output)
                (TokenListSchema.timestamp output) (Url.href tokenListUrl)
                (TokenListSchema.version output))); [done | apply Hinv | apply Hinv].
Qed.

(** After a call that returns, the list is found under the [href] of the
    URL with the name, timestamp and version of the document; and the
    order of [tokenLists] is the order of first ingestion: an [href] that
    was there keeps its place, a new one goes last. *)
Theorem fetchTokensFromList_records_list
    (fetch : Url.URL → JS.Exception + Response JSON) (tokenListUrl : Url.URL)
    (st st' : TokenMetadataStore) :
  storeInv st →
  fetchTokensFromList JSON safeParse_tokenListSchema fetch tokenListUrl st
    = (Return tt, st') →
  ∃ response body output lists,
    fetch tokenListUrl = inr response ∧ json JSON response = inr body
    ∧ safeParse_tokenListSchema body = TokenListSchema.Success output
    ∧ getTokenListMetadata tokenListUrl st'
      = (Return (Some (mkTokenListMetadata (TokenListSchema.listName output)
                         (TokenListSchema.timestamp output) (Url.href tokenListUrl)
                         (TokenListSchema.version output))), st')
    ∧ get_tokenLists st' = (Return lists, st')
    ∧ map href lists
      = if decide (Url.href tokenListUrl ∈ map href (map snd (tokenLists st)))
        then map href (map snd (tokenLists st))
        else map href (map snd (tokenLists st)) ++ [Url.href tokenListUrl].
Proof.
  intros Hinv Hrun.
  destruct (fetchTokensFromList_cases fetch tokenListUrl st st' _ Hinv Hrun)
    as [[[e He] _] | (response & body & output & st1 & _ & Hf & _ & Hj & Hp & _ & Hinv1 & _ & _ & ->)];
    [discriminate He |].
  exists response, body, output. eexists. repeat (split; [done |]).
  split; [| split; [reflexivity |]].
  - unfold getTokenListMetadata, gets. simpl. by rewrite Map_get_set.
  - simpl.
    pose proof (record_list_inv st1
      (mkTokenListMetadata (TokenListSchema.listName output)
         (TokenListSchema.timestamp output) (Url.href tokenListUrl)
         (TokenListSchema.version output)) (tokenLists st) Hinv1
      (inv_keys _ Hinv) (inv_href _ Hinv)) as Hinv'.
    apply storeInv_values in Hinv'. simpl in Hinv'. rewrite Hinv'.
    rewrite (storeInv_values st Hinv). apply Map_set_order.
Qed.

(** Writing back a sequence that already has the logo changes nothing. *)
Lemma write_present_logo (st : TokenMetadataStore) (r : nat) (uri : string) :
  r < length (objects st) →
  mkLogoImage uri ∈ logoImagesOf st r →
  mkStore (tokenLists st) (tokensByAddress st)
    (<[r := mkTokenMetadata (pushNewSources (logoImagesOf st r) [uri])]> (objects st))
  = st.
Proof.
  intros Hlt Hin.
  assert (Hpush : pushNewSources (logoImagesOf st r) [uri] = logoImagesOf st r).
  { rewrite pushNewSources_eq, filter_cons, filter_nil.
    destruct (decide _) as [D | _]; [| by rewrite app_nil_r].
    by apply isNewSource_spec in D. }
  rewrite Hpush. destruct st as [tl tba objs]. cbn [tokenLists tokensByAddress objects] in *.
  f_equal. apply list_insert_id.
  destruct (lookup_lt_is_Some_2 objs r Hlt) as [[images] Eo].
  unfold logoImagesOf. cbn [objects]. rewrite Eo. reflexivity.
Qed.

Lemma addTokenLogoImageSources_present (chainAddress : ChainAddress) (uri : string)
    (st : TokenMetadataStore) :
  storeInv st → hasLogoAt (getChainAddressKey chainAddress) uri st →
  ∃ r, addTokenLogoImageSources chainAddress [uri] st = (Return r, st).
Proof.
  intros Hinv (r & Hr & Hin). exists r.
  rewrite (addTokenLogoImageSources_bound _ _ _ _ Hr). f_equal.
  apply write_present_logo; [by eapply inv_refs | done].
Qed.

Lemma linkBridgedToken_present (tokenMetadata : nat) (uri : string)
    (n : N) (b : TokenListSchema.BridgeInfo) (st : TokenMetadataStore) :
  storeInv st →
  hasLogoAt (getChainAddressKey (mkChainAddress n (TokenListSchema.tokenAddress b))) uri st →
  linkBridgedToken tokenMetadata uri (JS.numberToString n, b) st = (Return tt, st).
Proof.
  intros Hinv (r & Hr & Hin).
  rewrite (linkBridgedToken_bound _ _ _ _ _ r) by by rewrite Number_numberToString.
  f_equal. apply write_present_logo; [by eapply inv_refs | done].
Qed.

(** A token whose logo is already at its own key and at all its bridge
    targets is processed without any change to the store. *)
Lemma ingestToken_present (token : TokenListSchema.TokenInfo) (st : TokenMetadataStore) :
  storeInv st →
  (∀ uri, acceptedLogo token = Some uri →
     hasLogoAt (getChainAddressKey
                  (mkChainAddress (TokenListSchema.chainId token)
                     (TokenListSchema.address token))) uri st
     ∧ ∀ record n b, bridgeInfoOf token = Some record → (n, b) ∈ record →
         hasLogoAt (getChainAddressKey
                      (mkChainAddress n (TokenListSchema.tokenAddress b))) uri st) →
  ingestToken token st = (Return tt, st).
Proof.
  intros Hinv Hpresent. unfold ingestToken.
  destruct (acceptedLogo token) as [uri |]; [| reflexivity].
  destruct (Hpresent uri eq_refl) as [Hown Hbridge].
  destruct (addTokenLogoImageSources_present _ uri st Hinv Hown) as [r E].
  unfold mbind at 1, M_bind at 1. rewrite E.
  destruct (bridgeInfoOf token) as [record |]; [| reflexivity].
  specialize (Hbridge record).
  assert (H : ∀ l : list (N * TokenListSchema.BridgeInfo), l ⊆ record →
    forOf (TokenListSchema.Object_entries l) (linkBridgedToken r uri) st = (Return tt, st)).
  { induction l as [| [n b] l IH]; intros Hl; [reflexivity |].
    cbn [TokenListSchema.Object_entries map forOf fst snd]. unfold mbind, M_bind.
    rewrite linkBridgedToken_present; [| done |].
    - apply IH. intros x Hx. apply Hl. by constructor.
    - apply (Hbridge n b eq_refl). apply Hl. constructor. }
  by apply H.
Qed.

Lemma ingest_loop_present (tokens : list TokenListSchema.TokenInfo)
    (st : TokenMetadataStore) :
  storeInv st →
  (∀ token, token ∈ tokens → ∀ uri, acceptedLogo token = Some uri →
     hasLogoAt (getChainAddressKey
                  (mkChainAddress (TokenListSchema.chainId token)
                     (TokenListSchema.address token))) uri st
     ∧ ∀ record n b, bridgeInfoOf token = Some record → (n, b) ∈ record →
         hasLogoAt (getChainAddressKey
                      (mkChainAddress n (TokenListSchema.tokenAddress b))) uri st) →
  forOf tokens ingestToken st = (Return tt, st).
Proof.
  intros Hinv. induction tokens as [| token tokens IH]; intros Hpresent; [reflexivity |].
  cbn [forOf]. unfold mbind, M_bind.
  rewrite ingestToken_present; [| done | apply Hpresent; constructor].
  apply IH. intros t Ht. apply Hpresent. by constructor.
Qed.

(** Fetching again a list that has not changed is without effect: when a
    call has returned, a second call with the same fetch capability and URL
    returns and leaves the store exactly as the first call left it. *)
Theorem fetchTokensFromList_again
    (fetch : Url.URL → JS.Exception + Response JSON) (tokenListUrl : Url.URL)
    (st st' : TokenMetadataStore) :
  storeInv st →
  fetchTokensFromList JSON safeParse_tokenListSchema fetch tokenListUrl st
    = (Return tt, st') →
  fetchTokensFromList JSON safeParse_tokenListSchema fetch tokenListUrl st'
    = (Return tt, st').
Proof.
  intros Hinv Hrun.
  destruct (fetchTokensFromList_cases fetch tokenListUrl st st' _ Hinv Hrun)
    as [[[e He] _] | (response & body & output & st1 & _ & Hf & Hok & Hj & Hp & _ & Hinv1 & _ & Hlogos & ->)];
    [discriminate He |].
  set (meta := mkTokenListMetadata (TokenListSchema.listName output)
                 (TokenListSchema.timestamp output) (Url.href tokenListUrl)
                 (TokenListSchema.version output)).
  set (st2 := mkStore (Map_set (Url.href tokenListUrl) meta (tokenLists st))
                (tokensByAddress st1) (objects st1)).
  assert (Hinv2 : storeInv st2)
    by (apply (record_list_inv st1 meta); [done | apply Hinv | apply Hinv]).
  destruct (fetchTokensFromList_success JSON safeParse_tokenListSchema
              fetch tokenListUrl st2 response body output Hinv2 Hf Hok Hj Hp)
    as (st3 & E3 & _ & _ & E).
  rewrite ingest_loop_present in E3; [| done |].
  - injection E3 as <-. rewrite E. fold meta. subst st2.
    cbn [tokenLists tokensByAddress objects]. by rewrite Map_set_set.
  - intros token Htok uri Hlogo. destruct (Hlogos token Htok uri Hlogo) as [Hown Hbr].
    split; [exact Hown |]. intros record n b Hrec Hin. exact (Hbr record n b Hrec Hin).
Qed.

End FetchMoreFacts.

Section FetchMoreWitnesses.

Import Tokens.

Lemma fetchTokensFromList_retrieval_failure_witness :
  fetchTokensFromList TokenListSchema.SafeParseResult (λ body, body)
    (λ _, inr (mkResponse TokenListSchema.SafeParseResult false "Not Found"
                 (inr (TokenListSchema.Success Examples.sampleList))))
    Examples.sampleUrl newStore
  = (Throw (JS.Error "Failed to fetch token list: Not Found"), newStore).
Proof.
  exact (proj1 (proj2 (fetchTokensFromList_retrieval_failure
                         TokenListSchema.SafeParseResult (λ body, body)
                         (λ _, inr (mkResponse TokenListSchema.SafeParseResult false
                                      "Not Found"
                                      (inr (TokenListSchema.Success Examples.sampleList))))
                         Examples.sampleUrl newStore))
           _ eq_refl eq_refl).
Defined.

Lemma fetchTokensFromList_only_grows_witness :
  tokensByAddress
    (fetchTokensFromList TokenListSchema.SafeParseResult (λ body, body)
       (Examples.serve (TokenListSchema.Success Examples.sampleList))
       Examples.sampleUrl Examples.prepopulated).2
    !! "8453_50c5725949A6F0c72E6C4a641F24049A917DB0Cb" = Some 0.
Proof.
  refine (proj1 (fetchTokensFromList_only_grows
                   TokenListSchema.SafeParseResult (λ body, body)
                   (Examples.serve (TokenListSchema.Success Examples.sampleList))
                   Examples.sampleUrl Examples.prepopulated _ _ prepopulated_inv eq_refl)
            "8453_50c5725949A6F0c72E6C4a641F24049A917DB0Cb" 0 _).
  vm_compute. reflexivity.
Defined.

Lemma fetchTokensFromList_keeps_invariant_witness :
  storeInv
    (fetchTokensFromList TokenListSchema.SafeParseResult (λ body, body)
       (Examples.serve (TokenListSchema.Success Examples.sampleList))
       Examples.sampleUrl Examples.prepopulated).2.
Proof.
  exact (fetchTokensFromList_keeps_invariant
           TokenListSchema.SafeParseResult (λ body, body)
           (Examples.serve (TokenListSchema.Success Examples.sampleList))
           Examples.sampleUrl Examples.prepopulated _ _ prepopulated_inv eq_refl).
Defined.

Lemma fetchTokensFromList_records_list_witness :
  ∃ lists,
    get_tokenLists
      (fetchTokensFromList TokenListSchema.SafeParseResult (λ body, body)
         (Examples.serve (TokenListSchema.Success Examples.sampleList))
         Examples.sampleUrl newStore).2
    = (Return lists,
       (fetchTokensFromList TokenListSchema.SafeParseResult (λ body, body)
          (Examples.serve (TokenListSchema.Success Examples.sampleList))
          Examples.sampleUrl newStore).2)
    ∧ map href lists = ["https://lists.example/tokens.json"].
Proof.
  destruct (fetchTokensFromList_records_list
              TokenListSchema.SafeParseResult (λ body, body)
              (Examples.serve (TokenListSchema.Success Examples.sampleList))
              Examples.sampleUrl newStore _ newStore_inv eq_refl)
    as (response & body & output & lists & _ & _ & _ & _ & Hl & Ho).
  exists lists. split; [exact Hl | exact Ho].
Defined.

Lemma fetchTokensFromList_again_witness :
  fetchTokensFromList TokenListSchema.SafeParseResult (λ body, body)
    (Examples.serve (TokenListSchema.Success Examples.sampleList)) Examples.sampleUrl
    (fetchTokensFromList TokenListSchema.SafeParseResult (λ body, body)
       (Examples.serve (TokenListSchema.Success Examples.sampleList))
       Examples.sampleUrl newStore).2
  = (Return tt,
     (fetchTokensFromList TokenListSchema.SafeParseResult (λ body, body)
        (Examples.serve (TokenListSchema.Success Examples.sampleList))
        Examples.sampleUrl newStore).2).
Proof.
  exact (fetchTokensFromList_again
           TokenListSchema.SafeParseResult (λ body, body)
           (Examples.serve (TokenListSchema.Success Examples.sampleList))
           Examples.sampleUrl newStore _ newStore_inv eq_refl).
Defined.

End FetchMoreWitnesses.

(** ** tokens.ts: the store under [addTokenLogoImageSources], and lookups
    of lists by string *)

Section StoreMoreFacts.

Import Tokens ChainAddress.

(** A call of [addTokenLogoImageSources] keeps the invariant of the store
    and takes nothing away: every key keeps its object, and every object
    keeps its logo sources as the beginning of its sequence. *)
Theorem addTokenLogoImageSources_only_grows
    (chainAddress : ChainAddress) (newSources : list string)
    (st st' : TokenMetadataStore) (r : nat) :
  storeInv st →
  addTokenLogoImageSources chainAddress newSources st = (Return r, st') →
  storeInv st'
  ∧ (∀ k r0, tokensByAddress st !! k = Some r0 → tokensByAddress st' !! k = Some r0)
  ∧ (∀ r0, logoImagesOf st r0 `prefix_of` logoImagesOf st' r0).
Proof.
  intros Hinv Hrun.
  destruct (addTokenLogoImageSources_runs chainAddress newSources (λ _, True)
              ltac:(done) st (conj Hinv I))
    as (r' & st'' & E & [Hinv' _] & Hext & _).
  rewrite E in Hrun. injection Hrun as <- <-.
  split; [done |]. split; apply Hext.
Qed.

Section ByString.

Variable JSON : Type.
Variable safeParse_tokenListSchema : JSON → TokenListSchema.SafeParseResult.
Variable URL_new : string → option string → option Url.URL.

(** [getTokenListMetadata] on a string: whatever the URL parser, a string
    that does not parse makes the call throw the [TypeError] of [new URL],
    whose message quotes the string, and leaves the store alone; and after
    a fetch that returned, every string that parses to a URL with the
    [href] of the fetched URL finds the list that was recorded. *)
Theorem getTokenListMetadataOf_string
    (fetch : Url.URL → JS.Exception + Response JSON) (tokenListUrl : Url.URL)
    (st st' : TokenMetadataStore) (s : string) :
  storeInv st →
  fetchTokensFromList JSON safeParse_tokenListSchema fetch tokenListUrl st
    = (Return tt, st') →
  (URL_new s None = None →
   getTokenListMetadataOf URL_new (inr s) st'
   = (Throw (JS.TypeError ("Invalid URL: '" +:+ s +:+ "'")), st'))
  ∧ (∀ parsed, URL_new s None = Some parsed → Url.href parsed = Url.href tokenListUrl →
     ∃ meta,
       getTokenListMetadataOf URL_new (inr s) st' = (Return (Some meta), st')
       ∧ getTokenListMetadataOf URL_new (inl tokenListUrl) st' = (Return (Some meta), st')
       ∧ href meta = Url.href tokenListUrl).
Proof.
  intros Hinv Hrun. split.
  - intros Hnone. unfold getTokenListMetadataOf, mbind, M_bind, settle, Url.construct.
    by rewrite Hnone.
  - intros parsed Hparsed Hhref.
    destruct (fetchTokensFromList_cases JSON safeParse_tokenListSchema
                fetch tokenListUrl st st' _ Hinv Hrun)
      as [[[e He] _] | (response & body & output & st1 & _ & _ & _ & _ & _ & _ & _ & _ & _ & ->)];
      [discriminate He |].
    eexists. split; [| split].
    + unfold getTokenListMetadataOf, mbind, M_bind, settle, Url.construct.
      rewrite Hparsed. cbn [mret M_ret]. unfold gets. rewrite Hhref.
      cbn [tokenLists]. by rewrite Map_get_set.
    + unfold getTokenListMetadataOf, mbind, M_bind. cbn [mret M_ret]. unfold gets.
      cbn [tokenLists]. by rewrite Map_get_set.
    + reflexivity.
Qed.

End ByString.

End StoreMoreFacts.

Section StoreMoreWitnesses.

Import Tokens.

Lemma addTokenLogoImageSources_only_grows_witness :
  storeInv
    (addTokenLogoImageSources Examples.dai [Examples.daiLogo] Examples.prepopulated).2.
Proof.
  exact (proj1 (addTokenLogoImageSources_only_grows Examples.dai [Examples.daiLogo]
                  Examples.prepopulated _ 1 prepopulated_inv eq_refl)).
Defined.

Lemma addTokenLogoImageSources_idempotent_witness :
  addTokenLogoImageSources Examples.dai [Examples.daiLogo; "/static/images/dai.png"]
    (addTokenLogoImageSources Examples.dai [Examples.daiLogo; "/static/images/dai.png"]
       Examples.prepopulated).2
  = (Return 1,
     (addTokenLogoImageSources Examples.dai [Examples.daiLogo; "/static/images/dai.png"]
        Examples.prepopulated).2).
Proof.
  exact (addTokenLogoImageSources_idempotent Examples.dai
           [Examples.daiLogo; "/static/images/dai.png"] Examples.prepopulated _ 1 eq_refl).
Defined.

Lemma addTokenLogoImageSources_NoDup_witness :
  NoDup (logoImagesOf
           (addTokenLogoImageSources Examples.dai
              [Examples.daiLogo; "/static/images/dai.png"] newStore).2 0).
Proof.
  refine (addTokenLogoImageSources_NoDup Examples.dai
            [Examples.daiLogo; "/static/images/dai.png"] newStore _ 0 _ _ _ 0).
  - apply NoDup_cons. split; [| apply NoDup_singleton].
    intros H. apply list_elem_of_singleton in H. discriminate H.
  - intros r'. vm_compute. constructor.
  - reflexivity.
Defined.

Lemma getTokenListMetadataOf_string_witness :
  (∃ meta,
     getTokenListMetadataOf Whatwg.URL_new (inr "HTTPS://Lists.Example/tokens.json")
       (fetchTokensFromList TokenListSchema.SafeParseResult (λ body, body)
          (Examples.serve (TokenListSchema.Success Examples.sampleList))
          Examples.sampleUrl newStore).2
     = (Return (Some meta),
        (fetchTokensFromList TokenListSchema.SafeParseResult (λ body, body)
           (Examples.serve (TokenListSchema.Success Examples.sampleList))
           Examples.sampleUrl newStore).2)
     ∧ href meta = "https://lists.example/tokens.json")
  ∧ getTokenListMetadataOf Whatwg.URL_new (inr "not a url")
      (fetchTokensFromList TokenListSchema.SafeParseResult (λ body, body)
         (Examples.serve (TokenListSchema.Success Examples.sampleList))
         Examples.sampleUrl newStore).2
    = (Throw (JS.TypeError "Invalid URL: 'not a url'"),
       (fetchTokensFromList TokenListSchema.SafeParseResult (λ body, body)
          (Examples.serve (TokenListSchema.Success Examples.sampleList))
          Examples.sampleUrl newStore).2).
Proof.
  split.
  - destruct (proj2 (getTokenListMetadataOf_string
                       TokenListSchema.SafeParseResult (λ body, body) Whatwg.URL_new
                       (Examples.serve (TokenListSchema.Success Examples.sampleList))
                       Examples.sampleUrl newStore _ "HTTPS://Lists.Example/tokens.json"
                       newStore_inv eq_refl)
                _ eq_refl eq_refl) as (meta & E & _ & Hh).
    exists meta. split; [exact E | exact Hh].
  - exact (proj1 (getTokenListMetadataOf_string
                    TokenListSchema.SafeParseResult (λ body, body) Whatwg.URL_new
                    (Examples.serve (TokenListSchema.Success Examples.sampleList))
                    Examples.sampleUrl newStore _ "not a url"
                    newStore_inv eq_refl)
             eq_refl).
Defined.

End StoreMoreWitnesses.

(** ** url.ts on the modelled URL parser *)

Section ResolverFacts.

Import Url Whatwg.














Lemma cut_unreserved (stop : ascii → bool) (s : string) :
  (∀ c, isUnreserved c = true → stop c = false) →
  Forall (λ c, isUnreserved c = true) (String.list_ascii_of_string s) →
  cut stop s = (s, EmptyString).
Proof.
  intros Hstop. induction s as [| c s IH]; intros H; [reflexivity |].
  cbn [String.list_ascii_of_string] in H. apply Forall_cons in H as [Hc Hs].
  cbn [cut]. rewrite (Hstop c Hc), (IH Hs). reflexivity.
Qed.

Lemma splitOn_unreserved (s : string) :
  Forall (λ c, isUnreserved c = true) (String.list_ascii_of_string s) →
  splitOn "/" s = [s].
Proof.
  induction s as [| c s IH]; intros H; [reflexivity |].
  cbn [String.list_ascii_of_string] in H. apply Forall_cons in H as [Hc Hs].
  cbn [splitOn]. rewrite (IH Hs).
  destruct (Ascii.eqb_spec c "/") as [-> | _]; [discriminate Hc | reflexivity].
Qed.

Lemma unreserved_not_authority_end (c : ascii) :
  isUnreserved c = true → isAuthorityEnd c = false.
Proof. destruct c as [[] [] [] [] [] [] [] []]; vm_compute; congruence. Qed.

Lemma unreserved_not_path_end (c : ascii) :
  isUnreserved c = true → isPathEnd c = false.
Proof. destruct c as [[] [] [] [] [] [] [] []]; vm_compute; congruence. Qed.

Lemma unreserved_modelled (s : string) :
  Forall (λ c, isUnreserved c = true) (String.list_ascii_of_string s) →
  hasUnmodelled s = false.
Proof.
  unfold hasUnmodelled. induction (String.list_ascii_of_string s) as [| c l IH];
    intros H; [reflexivity |].
  apply Forall_cons in H as [Hc Hl]. cbn [existsb]. rewrite (IH Hl), orb_false_r.
  revert Hc. destruct c as [[] [] [] [] [] [] [] []]; vm_compute; congruence.
Qed.

Lemma parseAfterSlashes_bare (sch cid : string) :
  Forall (λ c, isUnreserved c = true) (String.list_ascii_of_string cid) →
  isSpecial sch = false → String.eqb sch "file" = false →
  parseAfterSlashes sch cid = Some (mkComponents sch cid [] None None).
Proof.
  intros Hcid Hsp Hfile. unfold parseAfterSlashes.
  rewrite (cut_unreserved isAuthorityEnd cid unreserved_not_authority_end Hcid).
  change (cut isPathEnd "") with ("", "").
  change (queryAndFragment "") with (@None string, @None string).
  rewrite (unreserved_modelled cid Hcid), Hsp, Hfile. reflexivity.
Qed.

Lemma cut_append (stop : ascii → bool) (p s : string) :
  Forall (λ c, stop c = false) (String.list_ascii_of_string p) →
  cut stop (p +:+ s) = (p +:+ (cut stop s).1, (cut stop s).2).
Proof.
  induction p as [| c p IH]; intros H.
  - change (cut stop s = ((cut stop s).1, (cut stop s).2)). by destruct (cut stop s).
  - cbn [String.list_ascii_of_string] in H. apply Forall_cons in H as [Hc Hp].
    change (cut stop (String c (p +:+ s))
            = (String c (p +:+ (cut stop s).1), (cut stop s).2)).
    cbn [cut]. rewrite Hc, (IH Hp). reflexivity.
Qed.

Lemma splitOn_append (p s : string) :
  Forall (λ c, isUnreserved c = true) (String.list_ascii_of_string p) →
  splitOn "/" (p +:+ String "/" s) = p :: splitOn "/" s.
Proof.
  induction p as [| c p IH]; intros H; [reflexivity |].
  cbn [String.list_ascii_of_string] in H. apply Forall_cons in H as [Hc Hp].
  change (splitOn "/" (String c (p +:+ String "/" s)) = String c p :: splitOn "/" s).
  cbn [splitOn]. rewrite (IH Hp).
  destruct (Ascii.eqb_spec c "/") as [-> | _]; [discriminate Hc | reflexivity].
Qed.

(** The gateway URL that the resolver builds for an identifier, parsed. *)
Lemma basicParse_gateway (kind cid : string) :
  Forall (λ c, isUnreserved c = true) (String.list_ascii_of_string kind) →
  Forall (λ c, isUnreserved c = true) (String.list_ascii_of_string cid) →
  kind ≠ "." → kind ≠ ".." → cid ≠ "." → cid ≠ ".." →
  basicParse ("https://ipfs.io/" +:+ "/" +:+ kind +:+ "/" +:+ cid) None
  = Some (mkComponents "https" "ipfs.io" [EmptyString; kind; cid] None None).
Proof.
  intros Hkind Hcid Hk1 Hk2 Hc1 Hc2. unfold basicParse.
  change (schemeStartState ("https://ipfs.io/" +:+ "/" +:+ kind +:+ "/" +:+ cid))
    with (Some ("https", String "/" (String "/"
                  ("ipfs.io" +:+ String "/" (String "/" (kind +:+ String "/" cid)))))).
  cbv beta iota. unfold parseAfterSlashes.
  change (cut isAuthorityEnd
            ("ipfs.io" +:+ String "/" (String "/" (kind +:+ String "/" cid))))
    with ("ipfs.io", String "/" (String "/" (kind +:+ String "/" cid))).
  assert (Hcut : cut isPathEnd (String "/" (String "/" (kind +:+ String "/" cid)))
                 = (String "/" (String "/" (kind +:+ String "/" cid)), EmptyString)).
  { assert (Hk : Forall (λ c, isPathEnd c = false) (String.list_ascii_of_string kind)).
    { eapply Forall_impl; [exact Hkind |]. apply unreserved_not_path_end. }
    change (String "/" (String "/" (kind +:+ String "/" cid)))
      with ("//" +:+ (kind +:+ String "/" cid)) at 1.
    rewrite (cut_append isPathEnd "//") by (repeat constructor).
    rewrite (cut_append isPathEnd kind _ Hk).
    change (cut isPathEnd (String "/" cid))
      with (let '(a, b) := cut isPathEnd cid in (String "/" a, b)).
    rewrite (cut_unreserved isPathEnd cid unreserved_not_path_end Hcid).
    reflexivity. }
  cbv beta iota. rewrite Hcut. cbv beta iota.
  change (queryAndFragment "") with (@None string, @None string).
  cbv beta iota.
  assert (Hp : parsePath true (String "/" (String "/" (kind +:+ String "/" cid)))
               = [EmptyString; kind; cid]).
  { change (parsePath true (String "/" (String "/" (kind +:+ String "/" cid))))
      with (pathState (EmptyString :: splitOn "/" (kind +:+ String "/" cid)) []).
    rewrite (splitOn_append kind cid Hkind), (splitOn_unreserved cid Hcid).
    apply String.eqb_neq in Hk1, Hk2, Hc1, Hc2.
    cbn [pathState]. change (String.eqb "" "..") with false.
    change (String.eqb "" ".") with false. rewrite Hk1, Hk2, Hc1, Hc2. reflexivity. }
  change (isSpecial "https") with true. rewrite Hp. reflexivity.
Qed.

Lemma append_nil_r (s : string) : s +:+ EmptyString = s.
Proof.
  induction s as [| c s IH]; [reflexivity |].
  change (String c (s +:+ EmptyString) = String c s). by rewrite IH.
Qed.

(** A bare identifier: for an [ipfs://] or [ipns://] reference that is
    only a content identifier or name made of unreserved characters (and
    is not a dot segment), the resolver with the default gateway returns
    the gateway URL that ends in [/ipfs/] or [/ipns/] and the identifier.
    The gateway string ends in a slash and the code adds another, so the
    path of the result starts with two slashes. *)
Theorem toHttpsUrl_bare_identifier (cid : string) :
  Forall (λ c, isUnreserved c = true) (String.list_ascii_of_string cid) →
  cid ≠ "." → cid ≠ ".." →
  toHttpsUrl Whatwg.URL_new ("ipfs://" +:+ cid) None
    = inr (mkURL ("https://ipfs.io//ipfs/" +:+ cid) "https:" "ipfs.io"
             ("//ipfs/" +:+ cid) "" "")
  ∧ toHttpsUrl Whatwg.URL_new ("ipns://" +:+ cid) None
    = inr (mkURL ("https://ipfs.io//ipns/" +:+ cid) "https:" "ipfs.io"
             ("//ipns/" +:+ cid) "" "").
Proof.
  intros Hcid Hdot Hdots.
  assert (Hipfs : Whatwg.URL_new ("ipfs://" +:+ cid) None
                  = Some (toURL (mkComponents "ipfs" cid [] None None))).
  { unfold Whatwg.URL_new, basicParse.
    change (schemeStartState ("ipfs://" +:+ cid))
      with (Some ("ipfs", String "/" (String "/" cid))).
    cbv beta iota. by rewrite (parseAfterSlashes_bare "ipfs" cid Hcid). }
  assert (Hipns : Whatwg.URL_new ("ipns://" +:+ cid) None
                  = Some (toURL (mkComponents "ipns" cid [] None None))).
  { unfold Whatwg.URL_new, basicParse.
    change (schemeStartState ("ipns://" +:+ cid))
      with (Some ("ipns", String "/" (String "/" cid))).
    cbv beta iota. by rewrite (parseAfterSlashes_bare "ipns" cid Hcid). }
  assert (Hgw : ∀ kind,
    Forall (λ c, isUnreserved c = true) (String.list_ascii_of_string kind) →
    kind ≠ "." → kind ≠ ".." →
    Whatwg.URL_new EmptyString (Some ("https://ipfs.io/" +:+ "/" +:+ kind +:+ "/" +:+ cid))
    = Some (mkURL ("https://ipfs.io//" +:+ kind +:+ "/" +:+ cid) "https:" "ipfs.io"
              ("//" +:+ kind +:+ "/" +:+ cid) "" "")).
  { intros kind Hkind Hk1 Hk2. unfold Whatwg.URL_new.
    rewrite (basicParse_gateway kind cid Hkind Hcid Hk1 Hk2 Hdot Hdots).
    change (basicParse "" (Some (mkComponents "https" "ipfs.io" [""; kind; cid] None None)))
      with (Some (mkComponents "https" "ipfs.io" [""; kind; cid] None None)).
    cbn [fmap option_fmap option_map]. f_equal. unfold toURL, serialize.
    cbn [scheme host path query fragment serializePath fold_right withPrefix
         nonEmptyWithPrefix].
    rewrite !append_nil_r. reflexivity. }
  split.
  - unfold toHttpsUrl, construct. rewrite Hipfs.
    change (protocol (toURL (mkComponents "ipfs" cid [] None None))) with "ipfs:".
    cbn [String.eqb Ascii.eqb Bool.eqb].
    change (pathname (toURL (mkComponents "ipfs" cid [] None None))
            +:+ search (toURL (mkComponents "ipfs" cid [] None None))
            +:+ hash (toURL (mkComponents "ipfs" cid [] None None))) with EmptyString.
    change (buildIpfsHttpsUrl (hostname (toURL (mkComponents "ipfs" cid [] None None)))
              (Some (default Defaults.defaultIpfsProvider None)))
      with ("https://ipfs.io/" +:+ "/" +:+ "ipfs" +:+ "/" +:+ cid).
    rewrite (Hgw "ipfs") by (repeat constructor || discriminate). reflexivity.
  - unfold toHttpsUrl, construct. rewrite Hipns.
    change (protocol (toURL (mkComponents "ipns" cid [] None None))) with "ipns:".
    cbn [String.eqb Ascii.eqb Bool.eqb].
    change (pathname (toURL (mkComponents "ipns" cid [] None None))
            +:+ search (toURL (mkComponents "ipns" cid [] None None))
            +:+ hash (toURL (mkComponents "ipns" cid [] None None))) with EmptyString.
    change (buildIpnsHttpUrl (hostname (toURL (mkComponents "ipns" cid [] None None)))
              (Some (default Defaults.defaultIpfsProvider None)))
      with ("https://ipfs.io/" +:+ "/" +:+ "ipns" +:+ "/" +:+ cid).
    rewrite (Hgw "ipns") by (repeat constructor || discriminate). reflexivity.
Qed.







End ResolverFacts.


Lemma toHttpsUrl_bare_identifier_witness :
  Url.toHttpsUrl Whatwg.URL_new "ipns://tokens.uniswap.org" None
  = inr (Url.mkURL "https://ipfs.io//ipns/tokens.uniswap.org" "https:" "ipfs.io"
           "//ipns/tokens.uniswap.org" "" "").
Proof.
  refine (proj2 (toHttpsUrl_bare_identifier "tokens.uniswap.org" _ _ _)).
  - repeat (constructor; [reflexivity |]). constructor.
  - discriminate.
  - discriminate.
Defined.


(** ** chain-address.ts: the keys of the cache *)

Section CacheKeyFacts.

Import ChainAddress.

Lemma without_keys {V : Type} (k : string) (l : list (string * V)) :
  map fst (without k l) `sublist_of` map fst l ∧ k ∉ map fst (without k l).
Proof.
  unfold without. induction l as [| [k' v] l [IHs IHn]]; [split; [done | apply not_elem_of_nil] |].
  rewrite filter_cons. destruct (decide _) as [D | D]; simpl in *.
  - split; [by apply sublist_skip |].
    intros Hin. apply elem_of_cons in Hin as [-> | Hin]; [| done].
    rewrite String.eqb_refl in D. discriminate D.
  - split; [by apply sublist_cons | done].
Qed.

(** The keys of the cache are distinct, and each is the lowercased form of
    a string that [isAddress] was called with: no answer is ever stored
    under the spelling of the caller. *)
Theorem cacheAfter_keys (calls : list string) :
  NoDup (map fst (entries (cacheAfter calls)))
  ∧ ∀ k, k ∈ map fst (entries (cacheAfter calls)) →
         ∃ s, s ∈ calls ∧ k = JS.toLocaleLowerCase s.
Proof.
  unfold cacheAfter.
  assert (H : ∀ (rest asked : list string) (c : LruCache bool),
    NoDup (map fst (entries c)) →
    (∀ k, k ∈ map fst (entries c) → ∃ s, s ∈ asked ∧ k = JS.toLocaleLowerCase s) →
    NoDup (map fst (entries (fold_left (λ cache s, (isAddress s cache).2) rest c)))
    ∧ ∀ k, k ∈ map fst (entries (fold_left (λ cache s, (isAddress s cache).2) rest c)) →
           ∃ s, s ∈ asked ++ rest ∧ k = JS.toLocaleLowerCase s).
  { induction rest as [| s rest IH]; intros asked c Hnd Hk.
    - rewrite app_nil_r. by split.
    - cbn [fold_left].
      replace (asked ++ s :: rest) with ((asked ++ [s]) ++ rest)
        by by rewrite <- app_assoc.
      assert (Hused : ∀ v,
        NoDup (map fst (entries (setMostRecentlyUsed (JS.toLocaleLowerCase s) v c)))
        ∧ ∀ k, k ∈ map fst (entries (setMostRecentlyUsed (JS.toLocaleLowerCase s) v c)) →
               ∃ s', s' ∈ asked ++ [s] ∧ k = JS.toLocaleLowerCase s').
      { intros v. unfold setMostRecentlyUsed. cbn [entries]. rewrite map_app. cbn [map fst].
        destruct (without_keys (JS.toLocaleLowerCase s) (entries c)) as [Hsub Hnot].
        split.
        - apply NoDup_app. split; [by eapply sublist_NoDup |]. split.
          + intros k Hin Hin'. apply list_elem_of_singleton in Hin' as ->. done.
          + apply NoDup_singleton.
        - intros k Hin. apply elem_of_app in Hin as [Hin | Hin].
          + destruct (Hk k) as (s' & Hs' & ->).
            { eapply elem_of_sublist; [exact Hin | exact Hsub]. }
            exists s'. split; [apply elem_of_app; by left | reflexivity].
          + apply list_elem_of_singleton in Hin as ->. exists s.
            split; [apply elem_of_app; right; constructor | reflexivity]. }
      apply IH.
      + unfold isAddress, LruCache_get, LruCache_set, pruneToMaxSize.
        destruct (assoc (JS.toLocaleLowerCase s) (entries c)) as [v |]; cbn [snd].
        * apply Hused.
        * destruct (_ <? _)%N; cbn [entries]; [| apply Hused].
          destruct (Hused (addressRegex_test (JS.toLocaleLowerCase s))) as [Hnd' _].
          destruct (entries (setMostRecentlyUsed _ _ c)) as [| e l]; [constructor |].
          cbn [tail]. cbn [map] in Hnd'. by apply NoDup_cons in Hnd' as [_ ?].
      + unfold isAddress, LruCache_get, LruCache_set, pruneToMaxSize.
        destruct (assoc (JS.toLocaleLowerCase s) (entries c)) as [v |]; cbn [snd].
        * apply Hused.
        * destruct (_ <? _)%N; cbn [entries]; [| apply Hused].
          destruct (Hused (addressRegex_test (JS.toLocaleLowerCase s))) as [_ Hk'].
          intros k Hin. apply Hk'.
          destruct (entries (setMostRecentlyUsed _ _ c)) as [| e l]; [done |].
          cbn [tail] in Hin. cbn [map]. by constructor. }
  apply (H calls [] isAddressCache).
  - constructor.
  - intros k Hin. by apply elem_of_nil in Hin.
Qed.

End CacheKeyFacts.

Lemma cacheAfter_keys_witness :
  NoDup (map fst (ChainAddress.entries
                    (ChainAddress.cacheAfter
                       [Examples.daiAddress; Examples.malformed; Examples.daiAddress]))).
Proof.
  exact (proj1 (cacheAfter_keys
                  [Examples.daiAddress; Examples.malformed; Examples.daiAddress])).
Defined.

(** ** tokens.ts: what list ingestion keeps true of every logo sequence *)

Section SequenceFacts.

Import Tokens ChainAddress.

(** A loop keeps whatever every iteration keeps, however it ends. *)
Lemma forOf_preserves {A : Type} (P : TokenMetadataStore → Prop)
    (body : A → M unit) (xs : list A) :
  (∀ x st c st', x ∈ xs → P st → body x st = (c, st') → P st') →
  ∀ st c st', P st → forOf xs body st = (c, st') → P st'.
Proof.
  induction xs as [| x xs IH]; intros Hbody st c st' HP Hrun.
  - cbn [forOf] in Hrun. by injection Hrun as _ <-.
  - cbn [forOf] in Hrun. unfold mbind, M_bind in Hrun.
    destruct (body x st) as [[[] | e] st1] eqn:E.
    + apply (IH (λ y st0 c0 st0' Hy, Hbody y st0 c0 st0' ltac:(by constructor))
               st1 c st'); [| exact Hrun].
      eapply Hbody; [constructor | exact HP | exact E].
    + injection Hrun as _ <-. eapply Hbody; [constructor | exact HP | exact E].
Qed.

Section Kept.

(** [G] is a property of logo sequences that the empty sequence has and
    that pushing a source satisfying [U] keeps. *)
Variable G : list LogoImage → Prop.
Variable U : string → Prop.
Hypothesis G_nil : G [].
Hypothesis G_push : ∀ l uri, U uri → G l → G (pushNewSources l [uri]).

Lemma add_keeps (chainAddress : ChainAddress) (uri : string)
    (st st' : TokenMetadataStore) (c : Completion nat) :
  U uri → (∀ r, G (logoImagesOf st r)) →
  addTokenLogoImageSources chainAddress [uri] st = (c, st') →
  ∀ r, G (logoImagesOf st' r).
Proof.
  intros HU HG Hrun r.
  destruct (tokensByAddress st !! getChainAddressKey chainAddress) as [r0 |] eqn:E.
  - rewrite (addTokenLogoImageSources_bound _ _ _ _ E) in Hrun.
    injection Hrun as _ <-. rewrite logoImagesOf_insert.
    destruct (decide _); [by apply G_push | done].
  - rewrite (addTokenLogoImageSources_fresh _ _ _ E) in Hrun.
    injection Hrun as _ <-. rewrite logoImagesOf_app.
    destruct (decide _); [by apply G_push | done].
Qed.

Lemma link_keeps (tokenMetadata : nat) (uri : string)
    (entry : string * TokenListSchema.BridgeInfo)
    (st st' : TokenMetadataStore) (c : Completion unit) :
  U uri → (∀ r, G (logoImagesOf st r)) →
  linkBridgedToken tokenMetadata uri entry st = (c, st') →
  ∀ r, G (logoImagesOf st' r).
Proof.
  intros HU HG Hrun r. destruct entry as [chainIdString bridgeInfo].
  destruct (tokensByAddress st !! getChainAddressKey
              (mkChainAddress (JS.Number chainIdString)
                 (TokenListSchema.tokenAddress bridgeInfo))) as [r0 |] eqn:E.
  - rewrite (linkBridgedToken_bound _ _ _ _ _ _ E) in Hrun.
    injection Hrun as _ <-. rewrite logoImagesOf_insert.
    destruct (decide _); [by apply G_push | done].
  - rewrite (linkBridgedToken_unbound _ _ _ _ _ E) in Hrun.
    injection Hrun as _ <-. rewrite logoImagesOf_insert.
    destruct (decide _); [by apply G_push | done].
Qed.

Lemma ingest_keeps (token : TokenListSchema.TokenInfo)
    (st st' : TokenMetadataStore) (c : Completion unit) :
  (∀ uri, acceptedLogo token = Some uri → U uri) →
  (∀ r, G (logoImagesOf st r)) →
  ingestToken token st = (c, st') →
  ∀ r, G (logoImagesOf st' r).
Proof.
  intros HU HG Hrun. unfold ingestToken in Hrun.
  destruct (acceptedLogo token) as [uri |]; [| by injection Hrun as _ <-].
  specialize (HU uri eq_refl). unfold mbind at 1, M_bind at 1 in Hrun.
  destruct (addTokenLogoImageSources _ [uri] st) as [[tm | e] st1] eqn:E.
  - pose proof (add_keeps _ _ _ _ _ HU HG E) as HG1.
    destruct (bridgeInfoOf token) as [record |]; [| by injection Hrun as _ <-].
    eapply (forOf_preserves (λ s, ∀ r, G (logoImagesOf s r))); [| exact HG1 | exact Hrun].
    intros entry s0 c0 s0' _ HG0 Hlink. by eapply link_keeps.
  - injection Hrun as _ <-. by eapply add_keeps.
Qed.

Lemma fetch_keeps (JSON : Type)
    (safeParse_tokenListSchema : JSON → TokenListSchema.SafeParseResult)
    (fetch : Url.URL → JS.Exception + Response JSON) (tokenListUrl : Url.URL)
    (st st' : TokenMetadataStore) (c : Completion unit) :
  (∀ token uri, acceptedLogo token = Some uri → U uri) →
  (∀ r, G (logoImagesOf st r)) →
  fetchTokensFromList JSON safeParse_tokenListSchema fetch tokenListUrl st = (c, st') →
  ∀ r, G (logoImagesOf st' r).
Proof.
  intros HU HG Hrun. unfold fetchTokensFromList, mbind, M_bind, settle in Hrun.
  destruct (fetch tokenListUrl) as [e | response]; [by injection Hrun as _ <- |].
  cbn [mret M_ret] in Hrun.
  destruct (ok JSON response); cbn [negb mret M_ret throw] in Hrun;
    [| by injection Hrun as _ <-].
  destruct (json JSON response) as [e | body]; [by injection Hrun as _ <- |].
  cbn [mret M_ret] in Hrun.
  destruct (safeParse_tokenListSchema body) as [output | issues];
    [| by injection Hrun as _ <-].
  destruct (forOf (TokenListSchema.tokens output) ingestToken st) as [[[] | e] st1] eqn:E.
  - assert (HG1 : ∀ r, G (logoImagesOf st1 r)).
    { eapply (forOf_preserves (λ s, ∀ r, G (logoImagesOf s r))); [| exact HG | exact E].
      intros token s0 c0 s0' _ HG0 Hing. eapply ingest_keeps; [| exact HG0 | exact Hing].
      intros uri. apply HU. }
    unfold tokenLists_set, modify in Hrun. injection Hrun as _ <-. exact HG1.
  - injection Hrun as _ <-.
    eapply (forOf_preserves (λ s, ∀ r, G (logoImagesOf s r))); [| exact HG | exact E].
    intros token s0 c0 s0' _ HG0 Hing. eapply ingest_keeps; [| exact HG0 | exact Hing].
    intros uri. apply HU.
Qed.

End Kept.

Lemma acceptedLogo_is_https (token : TokenListSchema.TokenInfo) (uri : string) :
  acceptedLogo token = Some uri → Url.isHttpsUrl uri = true.
Proof.
  unfold acceptedLogo. destruct (TokenListSchema.logoURI token) as [u |]; [| discriminate].
  destruct (Url.isHttpsUrl u) eqn:E; [| by rewrite andb_false_r].
  destruct (negb _); [| discriminate]. by intros [= <-].
Qed.

(** List ingestion never creates a duplicate: when no logo sequence of the
    store holds a source twice, none does after a call, however it ends. *)
Theorem fetchTokensFromList_no_duplicates (JSON : Type)
    (safeParse_tokenListSchema : JSON → TokenListSchema.SafeParseResult)
    (fetch : Url.URL → JS.Exception + Response JSON) (tokenListUrl : Url.URL)
    (st st' : TokenMetadataStore) (c : Completion unit) :
  (∀ r, NoDup (logoImagesOf st r)) →
  fetchTokensFromList JSON safeParse_tokenListSchema fetch tokenListUrl st = (c, st') →
  ∀ r, NoDup (logoImagesOf st' r).
Proof.
  apply (fetch_keeps NoDup (λ _, True)); [constructor | | done].
  intros l uri _ Hl. apply pushNewSources_NoDup; [exact Hl | apply NoDup_singleton].
Qed.

(** List ingestion stores only logos that start with [https://]: when
    every source in the store does, every source does after a call. *)
Theorem fetchTokensFromList_https_logos_only (JSON : Type)
    (safeParse_tokenListSchema : JSON → TokenListSchema.SafeParseResult)
    (fetch : Url.URL → JS.Exception + Response JSON) (tokenListUrl : Url.URL)
    (st st' : TokenMetadataStore) (c : Completion unit) :
  (∀ r image, image ∈ logoImagesOf st r → Url.isHttpsUrl (src image) = true) →
  fetchTokensFromList JSON safeParse_tokenListSchema fetch tokenListUrl st = (c, st') →
  ∀ r image, image ∈ logoImagesOf st' r → Url.isHttpsUrl (src image) = true.
Proof.
  intros Hst Hrun.
  apply (fetch_keeps (λ l, ∀ image, image ∈ l → Url.isHttpsUrl (src image) = true)
           (λ uri, Url.isHttpsUrl uri = true)
           ltac:(intros image Hin; by apply elem_of_nil in Hin)) with (st := st) (st' := st')
    (JSON := JSON) (safeParse_tokenListSchema := safeParse_tokenListSchema)
    (fetch := fetch) (tokenListUrl := tokenListUrl) (c := c); [| | exact Hst | exact Hrun].
  - intros l uri Huri Hl image Hin. apply pushNewSources_elem in Hin as [Hin | [Hin _]].
    + by apply Hl.
    + apply list_elem_of_singleton in Hin. by rewrite Hin.
  - intros token uri. apply acceptedLogo_is_https.
Qed.

End SequenceFacts.

Section SequenceWitnesses.

Import Tokens.

Lemma fetchTokensFromList_no_duplicates_witness :
  NoDup (logoImagesOf
           (fetchTokensFromList TokenListSchema.SafeParseResult (λ body, body)
              (Examples.serve (TokenListSchema.Success Examples.sampleList))
              Examples.sampleUrl Examples.prepopulated).2 0).
Proof.
  refine (fetchTokensFromList_no_duplicates TokenListSchema.SafeParseResult (λ body, body)
            (Examples.serve (TokenListSchema.Success Examples.sampleList))
            Examples.sampleUrl Examples.prepopulated _ (Return tt) _ _ 0).
  - intros [| r]; vm_compute.
    + apply NoDup_singleton.
    + constructor.
  - reflexivity.
Defined.

Lemma fetchTokensFromList_https_logos_only_witness :
  Forall (λ image, Url.isHttpsUrl (src image) = true)
    (logoImagesOf
       (fetchTokensFromList TokenListSchema.SafeParseResult (λ body, body)
          (Examples.serve (TokenListSchema.Success Examples.sampleList))
          Examples.sampleUrl newStore).2 0).
Proof.
  apply Forall_forall. intros image.
  refine (fetchTokensFromList_https_logos_only TokenListSchema.SafeParseResult
            (λ body, body)
            (Examples.serve (TokenListSchema.Success Examples.sampleList))
            Examples.sampleUrl newStore _ (Return tt) _ _ 0 image).
  - intros r i Hin. vm_compute in Hin. by apply elem_of_nil in Hin.
  - reflexivity.
Defined.

End SequenceWitnesses.

(** ** tokens.ts: a document without usable logos *)

Section NoLogoFacts.

Import Tokens ChainAddress.

Variable JSON : Type.
Variable safeParse_tokenListSchema : JSON → TokenListSchema.SafeParseResult.

(** A document in which no token has a logo that starts with [https://]
    is still a list that was loaded: the call returns, no token entry is
    created or changed, and the list metadata is recorded under the
    [href]. *)
Theorem fetchTokensFromList_without_logos
    (fetch : Url.URL → JS.Exception + Response JSON) (tokenListUrl : Url.URL)
    (st : TokenMetadataStore) (response : Response JSON) (body : JSON)
    (output : TokenListSchema.TokenList) :
  fetch tokenListUrl = inr response → ok JSON response = true →
  json JSON response = inr body →
  safeParse_tokenListSchema body = TokenListSchema.Success output →
  (∀ token, token ∈ TokenListSchema.tokens output → acceptedLogo token = None) →
  ∃ st',
    fetchTokensFromList JSON safeParse_tokenListSchema fetch tokenListUrl st
      = (Return tt, st')
    ∧ tokensByAddress st' = tokensByAddress st
    ∧ objects st' = objects st
    ∧ getTokenListMetadata tokenListUrl st'
      = (Return (Some (mkTokenListMetadata (TokenListSchema.listName output)
                         (TokenListSchema.timestamp output) (Url.href tokenListUrl)
                         (TokenListSchema.version output))), st').
Proof.
  intros Hf Hok Hj Hp Hnone.
  assert (Hloop : forOf (TokenListSchema.tokens output) ingestToken st = (Return tt, st)).
  { induction (TokenListSchema.tokens output) as [| token tokens IH]; [reflexivity |].
    cbn [forOf]. unfold mbind, M_bind. unfold ingestToken at 1.
    rewrite (Hnone token) by constructor. cbn [mret M_ret].
    apply IH. intros t Ht. apply Hnone. by constructor. }
  eexists. split.
  - unfold fetchTokensFromList, mbind, M_bind, settle. rewrite Hf. cbn [mret M_ret].
    rewrite Hok. cbn [negb mret M_ret]. rewrite Hj. cbn [mret M_ret]. rewrite Hp, Hloop.
    reflexivity.
  - cbn [tokensByAddress objects]. split; [reflexivity |]. split; [reflexivity |].
    unfold getTokenListMetadata, gets. cbn [tokenLists]. by rewrite Map_get_set.
Qed.

End NoLogoFacts.

Section NoLogoWitnesses.

Import Tokens TokenListSchema.

Lemma fetchTokensFromList_without_logos_witness :
  ∃ st',
    fetchTokensFromList SafeParseResult (λ body, body)
      (Examples.serve
         (Success (mkTokenList "Plain" "2024-12-12T18:01:30.180Z" (mkVersion 1 0 0)
                     [mkTokenInfo 1 Examples.daiAddress "Dai Stablecoin" "DAI" 18
                        (Some "ipfs://cid/dai.png") None])))
      Examples.sampleUrl Examples.prepopulated = (Return tt, st')
    ∧ tokensByAddress st' = tokensByAddress Examples.prepopulated
    ∧ objects st' = objects Examples.prepopulated
    ∧ getTokenListMetadata Examples.sampleUrl st'
      = (Return (Some (mkTokenListMetadata "Plain" "2024-12-12T18:01:30.180Z"
                         "https://lists.example/tokens.json" (mkVersion 1 0 0))), st').
Proof.
  apply (fetchTokensFromList_without_logos SafeParseResult (λ body, body)
           (Examples.serve
              (Success (mkTokenList "Plain" "2024-12-12T18:01:30.180Z" (mkVersion 1 0 0)
                          [mkTokenInfo 1 Examples.daiAddress "Dai Stablecoin" "DAI" 18
                             (Some "ipfs://cid/dai.png") None])))
           Examples.sampleUrl Examples.prepopulated _ _ _ eq_refl eq_refl eq_refl eq_refl).
  intros token Hin. apply list_elem_of_singleton in Hin as ->. reflexivity.
Defined.

End NoLogoWitnesses.

(** ** tokens.ts: [fetchTokensFromList], token by token *)

Section CallFacts.

Import Tokens ChainAddress.

Variable JSON : Type.
Variable safeParse_tokenListSchema : JSON → TokenListSchema.SafeParseResult.

Lemma forOf_app {A : Type} (xs ys : list A) (body : A → M unit)
    (st : TokenMetadataStore) :
  forOf (xs ++ ys) body st
  = match forOf xs body st with
    | (Return _, st1) => forOf ys body st1
    | (Throw e, st1) => (Throw e, st1)
    end.
Proof.
  revert st; induction xs as [| x xs IH]; intros st; [reflexivity |].
  cbn [app forOf]. unfold mbind, M_bind.
  destruct (body x st) as [[[] | e] st1]; [apply IH | reflexivity].
Qed.

(** The guard in the words of the specification is the guard of the
    code. *)
Lemma hasHttpsLogo_accepted (token : TokenListSchema.TokenInfo) :
  hasHttpsLogo token = true ↔ ∃ uri, acceptedLogo token = Some uri.
Proof.
  unfold hasHttpsLogo, acceptedLogo.
  destruct (TokenListSchema.logoURI token) as [uri |].
  - destruct uri as [| c uri]; [split; [discriminate | by intros [? ?]] |].
    cbn [String.eqb negb andb].
    destruct (Url.isHttpsUrl (String c uri)); [| split; [discriminate | by intros [? ?]]].
    split; [by eexists | done].
  - split; [discriminate | by intros [? ?]].
Qed.

Lemma hasHttpsLogo_skipped (token : TokenListSchema.TokenInfo) (st : TokenMetadataStore) :
  hasHttpsLogo token = false → ingestToken token st = (Return tt, st).
Proof.
  intros H. unfold ingestToken.
  destruct (acceptedLogo token) as [uri |] eqn:E; [| reflexivity].
  assert (hasHttpsLogo token = true) by (apply hasHttpsLogo_accepted; by eexists).
  congruence.
Qed.

(** The loop over the tokens is the loop over the tokens that pass the
    guard. *)
Lemma ingest_loop_filter (tokens : list TokenListSchema.TokenInfo)
    (st : TokenMetadataStore) :
  forOf tokens ingestToken st
  = forOf (filter (λ token, hasHttpsLogo token = true) tokens) ingestToken st.
Proof.
  revert st; induction tokens as [| token tokens IH]; intros st; [reflexivity |].
  rewrite filter_cons. destruct (decide (hasHttpsLogo token = true)) as [H | H].
  - cbn [forOf]. unfold mbind, M_bind.
    destruct (ingestToken token st) as [[[] | e] st1]; [apply IH | reflexivity].
  - apply not_true_is_false in H.
    cbn [forOf]. unfold mbind, M_bind. rewrite (hasHttpsLogo_skipped _ _ H). apply IH.
Qed.

(** The bridging step leaves every other key as it is. *)
Lemma linkBridgedToken_frame (tokenMetadata : nat) (uri chainIdString : string)
    (bridgeInfo : TokenListSchema.BridgeInfo)
    (st st' : TokenMetadataStore) (c : Completion unit) (k : ChainAddressKey) :
  linkBridgedToken tokenMetadata uri (chainIdString, bridgeInfo) st = (c, st') →
  k ≠ getChainAddressKey
        (mkChainAddress (JS.Number chainIdString)
           (TokenListSchema.tokenAddress bridgeInfo)) →
  tokensByAddress st' !! k = tokensByAddress st !! k.
Proof.
  intros Hrun Hne.
  destruct (tokensByAddress st !! getChainAddressKey
              (mkChainAddress (JS.Number chainIdString)
                 (TokenListSchema.tokenAddress bridgeInfo))) as [r0 |] eqn:E.
  - rewrite (linkBridgedToken_bound _ _ _ _ _ _ E) in Hrun. by injection Hrun as _ <-.
  - rewrite (linkBridgedToken_unbound _ _ _ _ _ E) in Hrun.
    injection Hrun as _ <-. cbn [tokensByAddress]. by rewrite lookup_insert_ne.
Qed.

(** One iteration of the loop over the tokens leaves as it is every key
    that the token does not declare, and every key when the token does
    not pass the guard. *)
Lemma ingestToken_frame (token : TokenListSchema.TokenInfo)
    (st st' : TokenMetadataStore) (c : Completion unit) (k : ChainAddressKey) :
  (hasHttpsLogo token = true → ¬ declaresKey token k) →
  ingestToken token st = (c, st') →
  tokensByAddress st' !! k = tokensByAddress st !! k.
Proof.
  intros Hk Hrun.
  destruct (hasHttpsLogo token) eqn:Hguard.
  2: { rewrite (hasHttpsLogo_skipped _ _ Hguard) in Hrun. by injection Hrun as _ <-. }
  specialize (Hk eq_refl). unfold ingestToken in Hrun.
  destruct (acceptedLogo token) as [uri |]; [| by injection Hrun as _ <-].
  assert (Hown : k ≠ getChainAddressKey
                       (mkChainAddress (TokenListSchema.chainId token)
                          (TokenListSchema.address token))).
  { intros ->. apply Hk. by left. }
  unfold mbind at 1, M_bind at 1 in Hrun.
  destruct (tokensByAddress st !! getChainAddressKey
              (mkChainAddress (TokenListSchema.chainId token)
                 (TokenListSchema.address token))) as [r0 |] eqn:E.
  - rewrite (addTokenLogoImageSources_bound _ _ _ _ E) in Hrun.
    destruct (bridgeInfoOf token) as [record |] eqn:Hrec; [| by injection Hrun as _ <-].
    eapply (forOf_preserves
              (λ s, tokensByAddress s !! k = tokensByAddress st !! k));
      [| | exact Hrun]; [| reflexivity].
    intros [chainIdString bridgeInfo] s0 c0 s0' Hin H0 Hlink. rewrite <- H0.
    eapply linkBridgedToken_frame; [exact Hlink |].
    unfold TokenListSchema.Object_entries in Hin.
    apply list_elem_of_fmap in Hin as ([n b] & [= -> ->] & Hin).
    cbn [fst snd]. rewrite Number_numberToString.
    intros ->. apply Hk. right. by exists record, n, b.
  - rewrite (addTokenLogoImageSources_fresh _ _ _ E) in Hrun.
    destruct (bridgeInfoOf token) as [record |] eqn:Hrec.
    2: { injection Hrun as _ <-. cbn [tokensByAddress]. by rewrite lookup_insert_ne. }
    eapply (forOf_preserves
              (λ s, tokensByAddress s !! k = tokensByAddress st !! k));
      [| | exact Hrun]; [| cbn [tokensByAddress]; by rewrite lookup_insert_ne].
    intros [chainIdString bridgeInfo] s0 c0 s0' Hin H0 Hlink. rewrite <- H0.
    eapply linkBridgedToken_frame; [exact Hlink |].
    unfold TokenListSchema.Object_entries in Hin.
    apply list_elem_of_fmap in Hin as ([n b] & [= -> ->] & Hin).
    cbn [fst snd]. rewrite Number_numberToString.
    intros ->. apply Hk. right. by exists record, n, b.
Qed.

Lemma ingest_loop_frame (tokens : list TokenListSchema.TokenInfo)
    (st st' : TokenMetadataStore) (c : Completion unit) (k : ChainAddressKey) :
  (∀ token, token ∈ tokens → hasHttpsLogo token = true → ¬ declaresKey token k) →
  forOf tokens ingestToken st = (c, st') →
  tokensByAddress st' !! k = tokensByAddress st !! k.
Proof.
  intros Hk Hrun.
  eapply (forOf_preserves (λ s, tokensByAddress s !! k = tokensByAddress st !! k));
    [| reflexivity | exact Hrun].
  intros token s0 c0 s0' Hin H0 Hing. rewrite <- H0.
  eapply ingestToken_frame; [| exact Hing]. by apply Hk.
Qed.

(** C3. Bridging in [fetchTokensFromList]. The call is served a document
    that passes validation and lists [token], which has an accepted logo
    and declares the bridge target [(n, b)]. Then the call returns, and in
    the store it leaves: in every case the bridged key is bound to an
    object that has the logo among its sources; a bridged key that had an
    entry before the call is still bound to that same object, and it is
    that object which has the logo; a bridged key that had no entry, and
    that no earlier token of the document declares, is bound to the very
    object of the token's own key, which has the logo. *)
Theorem fetchTokensFromList_bridging
    (fetch : Url.URL → JS.Exception + Response JSON) (tokenListUrl : Url.URL)
    (st : TokenMetadataStore) (response : Response JSON) (body : JSON)
    (output : TokenListSchema.TokenList)
    (before after : list TokenListSchema.TokenInfo)
    (token : TokenListSchema.TokenInfo) (uri : string)
    (record : list (N * TokenListSchema.BridgeInfo))
    (n : N) (b : TokenListSchema.BridgeInfo) :
  let ownKey := getChainAddressKey
    (mkChainAddress (TokenListSchema.chainId token) (TokenListSchema.address token)) in
  let key := getChainAddressKey (mkChainAddress n (TokenListSchema.tokenAddress b)) in
  storeInv st →
  fetch tokenListUrl = inr response → ok JSON response = true →
  json JSON response = inr body →
  safeParse_tokenListSchema body = TokenListSchema.Success output →
  TokenListSchema.tokens output = before ++ token :: after →
  acceptedLogo token = Some uri →
  bridgeInfoOf token = Some record → (n, b) ∈ record →
  ∃ st',
    fetchTokensFromList JSON safeParse_tokenListSchema fetch tokenListUrl st
      = (Return tt, st')
    ∧ hasLogoAt key uri st'
    ∧ (∀ existing, tokensByAddress st !! key = Some existing →
         tokensByAddress st' !! key = Some existing ∧
         mkLogoImage uri ∈ logoImagesOf st' existing)
    ∧ (tokensByAddress st !! key = None →
       (∀ earlier, earlier ∈ before → hasHttpsLogo earlier = true →
                   ¬ declaresKey earlier key) →
       ∃ canonical,
         tokensByAddress st' !! ownKey = Some canonical ∧
         tokensByAddress st' !! key = Some canonical ∧
         mkLogoImage uri ∈ logoImagesOf st' canonical).
Proof.
  intros ownKey key Hinv Hf Hok Hj Hp Htokens Hlogo Hrec Hin.
  destruct (ingest_loop_runs before st Hinv) as ([] & st1 & E1 & Hinv1 & Hext1 & _).
  destruct (ingestToken_step token uri st1 Hinv1 Hlogo)
    as (st2 & E2 & Hinv2 & Hext2 & _ & Hbridge).
  destruct (Hbridge record n b Hrec Hin) as [Hhas Hnew]. fold key ownKey in Hhas, Hnew.
  destruct (ingest_loop_runs after st2 Hinv2) as ([] & st3 & E3 & Hinv3 & Hext3 & _).
  assert (Eloop : forOf (TokenListSchema.tokens output) ingestToken st = (Return tt, st3)).
  { rewrite Htokens, forOf_app, E1. cbn [forOf]. unfold mbind, M_bind. by rewrite E2. }
  destruct (fetchTokensFromList_success JSON safeParse_tokenListSchema
              fetch tokenListUrl st response body output Hinv Hf Hok Hj Hp)
    as (st3' & Eloop' & _ & _ & Ecall).
  rewrite Eloop in Eloop'. injection Eloop' as <-.
  eexists. split; [exact Ecall |].
  pose proof (hasLogoAt_extends _ _ _ _ Hhas Hext3) as (r & Hr & Hr_logo).
  split; [by exists r |]. split.
  - intros existing Hex. cbn [tokensByAddress].
    assert (Hkept : tokensByAddress st3 !! key = Some existing).
    { apply Hext3, Hext2, Hext1, Hex. }
    split; [exact Hkept |]. assert (r = existing) as -> by congruence. exact Hr_logo.
  - intros Hnone Hearlier.
    assert (Hnone1 : tokensByAddress st1 !! key = None).
    { rewrite <- Hnone. by eapply ingest_loop_frame. }
    destruct (Hnew Hnone1) as (canonical & Hown & Hkey & Hcan).
    exists canonical. cbn [tokensByAddress].
    split; [by apply Hext3 |]. split; [by apply Hext3 |].
    eapply elem_of_prefix; [exact Hcan | apply Hext3].
Qed.

(** C10. [fetchTokensFromList] works only for the tokens with an https
    logo. A call served a document that passes validation leaves the
    store, and returns or throws, exactly as a call served the same
    document without the tokens whose [logoURI] is absent or does not
    start with [https://]; and a key that no token with an https logo
    declares, as its own chain address or as a bridge target, is bound
    after the call to what it was bound to before, so that a key without
    an entry has none afterwards. *)
Theorem fetchTokensFromList_only_https_logos
    (fetch fetch' : Url.URL → JS.Exception + Response JSON) (tokenListUrl : Url.URL)
    (st : TokenMetadataStore) (response response' : Response JSON) (body body' : JSON)
    (output output' : TokenListSchema.TokenList) :
  fetch tokenListUrl = inr response → ok JSON response = true →
  json JSON response = inr body →
  safeParse_tokenListSchema body = TokenListSchema.Success output →
  fetch' tokenListUrl = inr response' → ok JSON response' = true →
  json JSON response' = inr body' →
  safeParse_tokenListSchema body' = TokenListSchema.Success output' →
  TokenListSchema.listName output' = TokenListSchema.listName output →
  TokenListSchema.timestamp output' = TokenListSchema.timestamp output →
  TokenListSchema.version output' = TokenListSchema.version output →
  TokenListSchema.tokens output'
  = filter (λ token, hasHttpsLogo token = true) (TokenListSchema.tokens output) →
  fetchTokensFromList JSON safeParse_tokenListSchema fetch tokenListUrl st
  = fetchTokensFromList JSON safeParse_tokenListSchema fetch' tokenListUrl st
  ∧ ∀ key,
      (∀ token, token ∈ TokenListSchema.tokens output →
                hasHttpsLogo token = true → ¬ declaresKey token key) →
      tokensByAddress
        (fetchTokensFromList JSON safeParse_tokenListSchema fetch tokenListUrl st).2
        !! key
      = tokensByAddress st !! key.
Proof.
  intros Hf Hok Hj Hp Hf' Hok' Hj' Hp' Hname Htime Hversion Htokens.
  assert (Hcall : ∀ (f : Url.URL → JS.Exception + Response JSON) resp bd out,
    f tokenListUrl = inr resp → ok JSON resp = true → json JSON resp = inr bd →
    safeParse_tokenListSchema bd = TokenListSchema.Success out →
    fetchTokensFromList JSON safeParse_tokenListSchema f tokenListUrl st
    = match forOf (TokenListSchema.tokens out) ingestToken st with
      | (Return _, st1) =>
          (Return tt,
           mkStore
             (Map_set (Url.href tokenListUrl)
                (mkTokenListMetadata (TokenListSchema.listName out)
                   (TokenListSchema.timestamp out) (Url.href tokenListUrl)
                   (TokenListSchema.version out))
                (tokenLists st1))
             (tokensByAddress st1) (objects st1))
      | (Throw e, st1) => (Throw e, st1)
      end).
  { intros f resp bd out Ef Eok Ej Ep.
    unfold fetchTokensFromList, mbind, M_bind, settle. rewrite Ef. cbn [mret M_ret].
    rewrite Eok. cbn [negb mret M_ret]. rewrite Ej. cbn [mret M_ret]. rewrite Ep.
    destruct (forOf _ ingestToken st) as [[[] | e] st1]; reflexivity. }
  split.
  - rewrite (Hcall fetch response body output Hf Hok Hj Hp).
    rewrite (Hcall fetch' response' body' output' Hf' Hok' Hj' Hp').
    by rewrite Htokens, <- ingest_loop_filter, Hname, Htime, Hversion.
  - intros key Hkey. rewrite (Hcall fetch response body output Hf Hok Hj Hp).
    destruct (forOf _ ingestToken st) as [[[] | e] st1] eqn:E; cbn [snd tokensByAddress];
      by eapply ingest_loop_frame.
Qed.

End CallFacts.

Section CallWitnesses.

Import Tokens.

Lemma fetchTokensFromList_bridging_witness :
  (∃ st',
     fetchTokensFromList TokenListSchema.SafeParseResult (λ body, body)
       (Examples.serve (TokenListSchema.Success Examples.sampleList))
       Examples.sampleUrl Examples.prepopulated = (Return tt, st')
     ∧ tokensByAddress st' !! "8453_50c5725949A6F0c72E6C4a641F24049A917DB0Cb" = Some 0
     ∧ mkLogoImage Examples.daiLogo ∈ logoImagesOf st' 0)
  ∧ (∃ st' canonical,
       fetchTokensFromList TokenListSchema.SafeParseResult (λ body, body)
         (Examples.serve (TokenListSchema.Success Examples.mixedList))
         Examples.sampleUrl newStore = (Return tt, st')
       ∧ tokensByAddress st' !! "1_6B175474E89094C44Da98b954EedeAC495271d0F"
         = Some canonical
       ∧ tokensByAddress st' !! "8453_50c5725949A6F0c72E6C4a641F24049A917DB0Cb"
         = Some canonical
       ∧ mkLogoImage Examples.daiLogo ∈ logoImagesOf st' canonical).
Proof.
  split.
  - destruct (fetchTokensFromList_bridging TokenListSchema.SafeParseResult (λ body, body)
                (Examples.serve (TokenListSchema.Success Examples.sampleList))
                Examples.sampleUrl Examples.prepopulated _ _ Examples.sampleList
                [] [] Examples.daiToken Examples.daiLogo
                [(8453%N, TokenListSchema.mkBridgeInfo Examples.daiOnBase)]
                8453%N (TokenListSchema.mkBridgeInfo Examples.daiOnBase)
                prepopulated_inv eq_refl eq_refl eq_refl eq_refl eq_refl eq_refl eq_refl
                ltac:(constructor))
      as (st' & E & _ & Hkept & _).
    exists st'. split; [exact E |]. apply (Hkept 0). vm_compute. reflexivity.
  - destruct (fetchTokensFromList_bridging TokenListSchema.SafeParseResult (λ body, body)
                (Examples.serve (TokenListSchema.Success Examples.mixedList))
                Examples.sampleUrl newStore _ _ Examples.mixedList
                [Examples.usdcToken] [] Examples.daiToken Examples.daiLogo
                [(8453%N, TokenListSchema.mkBridgeInfo Examples.daiOnBase)]
                8453%N (TokenListSchema.mkBridgeInfo Examples.daiOnBase)
                newStore_inv eq_refl eq_refl eq_refl eq_refl eq_refl eq_refl eq_refl
                ltac:(constructor))
      as (st' & E & _ & _ & Hnew).
    exists st'. destruct Hnew as (canonical & H1 & H2 & H3).
    + reflexivity.
    + intros earlier Hin Hguard. apply list_elem_of_singleton in Hin as ->.
      discriminate Hguard.
    + exists canonical. split; [exact E |]. split; [exact H1 |]. split; [exact H2 | exact H3].
Defined.

Lemma fetchTokensFromList_only_https_logos_witness :
  fetchTokensFromList TokenListSchema.SafeParseResult (λ body, body)
    (Examples.serve (TokenListSchema.Success Examples.mixedList))
    Examples.sampleUrl newStore
  = fetchTokensFromList TokenListSchema.SafeParseResult (λ body, body)
      (Examples.serve (TokenListSchema.Success Examples.sampleList))
      Examples.sampleUrl newStore
  ∧ tokensByAddress
      (fetchTokensFromList TokenListSchema.SafeParseResult (λ body, body)
         (Examples.serve (TokenListSchema.Success Examples.mixedList))
         Examples.sampleUrl newStore).2
      !! "1_A0b86991c6218b36c1d19D4a2e9Eb0cE3606eB48" = None
  ∧ tokensByAddress
      (fetchTokensFromList TokenListSchema.SafeParseResult (λ body, body)
         (Examples.serve (TokenListSchema.Success Examples.mixedList))
         Examples.sampleUrl newStore).2
      !! "8453_833589fCD6eDb6E08f4c7C32D4f71b54bdA02913" = None.
Proof.
  destruct (fetchTokensFromList_only_https_logos
              TokenListSchema.SafeParseResult (λ body, body)
              (Examples.serve (TokenListSchema.Success Examples.mixedList))
              (Examples.serve (TokenListSchema.Success Examples.sampleList))
              Examples.sampleUrl newStore _ _ _ _ Examples.mixedList Examples.sampleList
              eq_refl eq_refl eq_refl eq_refl eq_refl eq_refl eq_refl eq_refl
              eq_refl eq_refl eq_refl eq_refl) as [Hsame Hframe].
  split; [exact Hsame |].
  assert (Hother : ∀ key : string,
    key ≠ "1_6B175474E89094C44Da98b954EedeAC495271d0F" →
    key ≠ "8453_50c5725949A6F0c72E6C4a641F24049A917DB0Cb" →
    ∀ token, token ∈ TokenListSchema.tokens Examples.mixedList →
             hasHttpsLogo token = true → ¬ declaresKey token key).
  { intros key Hk1 Hk2 token Hin Hguard.
    apply elem_of_cons in Hin as [-> | Hin]; [discriminate Hguard |].
    apply list_elem_of_singleton in Hin as ->.
    intros [-> | (record & n & b & [= <-] & Hin & ->)]; [by apply Hk1 |].
    apply list_elem_of_singleton in Hin as [= -> ->]. by apply Hk2. }
  split; (rewrite Hframe; [reflexivity | apply Hother; discriminate]).
Defined.

End CallWitnesses.
